(** * Surfboard Finder: the recommendation and ranking engine

    A shallow embedding of the logic helpers and of the data pipeline of
    [surfboard_finder_pro_compare.jsx]:

    - [round1], [heuristicVolume], [scoreBoard]            (lines 62-79)
    - [safeParseCSVRow], [parseAirtableCSV]                (lines 85-116)
    - the catalog loader [load]                            (lines 132-148)
    - the memos [enriched], [filtered], [topPicksByShaper] (lines 150-174)

    Conventions of the embedding.

    - A JavaScript [number] is an exact rational, one of the two infinities,
      or NaN.  Arithmetic on finite values is exact: the rounding and the
      overflow of IEEE-754 doubles and the sign of zero are not modelled.
      NaN and the infinities propagate as in JavaScript.  Where the
      rounding of the doubles decides what is computed, in [round1] and
      [heuristicVolume], module [Binary64] holds the same functions on
      IEEE 754 doubles.
    - A JavaScript string is a [string] whose characters are the code units
      below 256; white space and letter case are those of that range.
    - [undefined] and [null] are [None].
    - [Array.prototype.sort] is the stable insertion sort driven by the sign
      of the comparator.  ECMAScript requires the sort to be stable; for a
      comparator that orders the elements consistently there is one
      admissible result and [js_sort] computes it (lemma
      [js_sort_stable_unique]).  The sorts of the page work in place, on
      arrays that [filter], [map] or a literal have just created, so no
      array that another memo reads is changed and lists as values are
      enough; module [Store] holds the pipeline on a store of arrays, with
      the sorts and [push] in place.

    The first part holds the embedding, the second the vocabulary in which
    the properties are stated, the third the properties. *)

From Stdlib Require Import ZArith QArith Qround Qabs Qminmax Qpower Lqa Lia.
From Stdlib Require Import SpecFloat.
From Stdlib Require Import Bool Ascii String List Permutation Sorted.
From Stdlib Require Import DecimalString.
Import ListNotations.

Set Implicit Arguments.

(* ================================================================= *)
(** ** JavaScript numbers *)

Module JsNumber.

Inductive number : Type :=
| Num (q : Q)
| PInf
| NInf
| NaN.

Definition is_finite (x : number) : bool :=
  match x with Num _ => true | _ => false end.

Definition is_nan (x : number) : bool :=
  match x with NaN => true | _ => false end.

(** Equality of values up to the representation of the rational. *)
Definition num_eq (x y : number) : Prop :=
  match x, y with
  | Num a, Num b => (a == b)%Q
  | PInf, PInf | NInf, NInf | NaN, NaN => True
  | _, _ => False
  end.

(** The mathematical order on the extended rationals; NaN is unordered. *)
Definition num_le (x y : number) : Prop :=
  match x, y with
  | NaN, _ | _, NaN => False
  | NInf, _ | _, PInf => True
  | Num a, Num b => (a <= b)%Q
  | _, _ => False
  end.

Definition num_lt (x y : number) : Prop :=
  match x, y with
  | NaN, _ | _, NaN => False
  | Num a, Num b => (a < b)%Q
  | NInf, NInf | PInf, PInf => False
  | NInf, _ | _, PInf => True
  | _, _ => False
  end.

(** Unary minus. *)
Definition neg (x : number) : number :=
  match x with
  | Num a => Num (- a)
  | PInf => NInf
  | NInf => PInf
  | NaN => NaN
  end.

(** [x + y] *)
Definition add (x y : number) : number :=
  match x, y with
  | NaN, _ | _, NaN => NaN
  | PInf, NInf | NInf, PInf => NaN
  | PInf, _ | _, PInf => PInf
  | NInf, _ | _, NInf => NInf
  | Num a, Num b => Num (a + b)
  end.

(** [x - y] *)
Definition sub (x y : number) : number := add x (neg y).

Definition signed_inf (c : comparison) : number :=
  match c with Gt => PInf | Lt => NInf | Eq => NaN end.

(** [x * y]; zero times infinity is NaN. *)
Definition mul (x y : number) : number :=
  match x, y with
  | NaN, _ | _, NaN => NaN
  | Num a, Num b => Num (a * b)
  | Num a, PInf | PInf, Num a => signed_inf (a ?= 0)%Q
  | Num a, NInf | NInf, Num a => signed_inf (0 ?= a)%Q
  | PInf, PInf | NInf, NInf => PInf
  | PInf, NInf | NInf, PInf => NInf
  end.

(** [x / y]; a zero divisor is taken to be [+0]. *)
Definition div (x y : number) : number :=
  match x, y with
  | NaN, _ | _, NaN => NaN
  | Num a, Num b =>
      if Qeq_bool b 0 then signed_inf (a ?= 0)%Q else Num (a / b)
  | Num _, _ => Num 0
  | PInf, Num b => if Qle_bool 0 b then PInf else NInf
  | NInf, Num b => if Qle_bool 0 b then NInf else PInf
  | _, _ => NaN
  end.

(** [x <= y]; false as soon as one side is NaN. *)
Definition le (x y : number) : bool :=
  match x, y with
  | NaN, _ | _, NaN => false
  | NInf, _ | _, PInf => true
  | Num a, Num b => Qle_bool a b
  | _, _ => false
  end.

(** [x >= y] *)
Definition ge (x y : number) : bool := le y x.

(** [x > y] *)
Definition gt (x y : number) : bool :=
  match x, y with
  | NaN, _ | _, NaN => false
  | Num a, Num b => negb (Qle_bool a b)
  | PInf, PInf | NInf, NInf => false
  | PInf, _ | _, NInf => true
  | _, _ => false
  end.

(** [Math.abs] *)
Definition Math_abs (x : number) : number :=
  match x with
  | Num a => Num (Qabs a)
  | PInf | NInf => PInf
  | NaN => NaN
  end.

(** [Math.min] of two arguments: NaN if either is NaN. *)
Definition Math_min (x y : number) : number :=
  match x, y with
  | NaN, _ | _, NaN => NaN
  | _, _ => if le x y then x else y
  end.

(** [Math.round]: the nearest integer, a tie going to the integer above. *)
Definition Math_round (x : number) : number :=
  match x with
  | Num a => Num (inject_Z (Qfloor (a + (1 # 2))))
  | _ => x
  end.

(** [Number(b)] for a boolean. *)
Definition of_bool (b : bool) : number := if b then Num 1 else Num 0.

End JsNumber.

Import JsNumber.

Declare Scope js_scope.
Delimit Scope js_scope with js.
Bind Scope js_scope with number.
Notation "x + y" := (add x y) : js_scope.
Notation "x - y" := (sub x y) : js_scope.
Notation "x * y" := (mul x y) : js_scope.
Notation "x / y" := (div x y) : js_scope.
Notation "x <= y" := (le x y) : js_scope.
Notation "x >= y" := (ge x y) : js_scope.
Notation "x > y" := (gt x y) : js_scope.
Notation "x =j= y" := (num_eq x y) (at level 70, no associativity).

(* ================================================================= *)
(** ** The data model (lines 23-39) *)

Inductive Ability : Type := beginner | intermediate | advanced.

Inductive WaveType : Type := small_beach | mellow_point | punchy_reef | overhead.

(** The string a value of the union type is at run time. *)
Definition Ability_value (a : Ability) : string :=
  match a with
  | beginner => "beginner"
  | intermediate => "intermediate"
  | advanced => "advanced"
  end.

Definition WaveType_value (w : WaveType) : string :=
  match w with
  | small_beach => "small_beach"
  | mellow_point => "mellow_point"
  | punchy_reef => "punchy_reef"
  | overhead => "overhead"
  end.

(** [waveTypes] and [abilities] hold the strings of the feed: the casts
    [as WaveType[]] and [as Ability[]] of the CSV reader check nothing.
    [sponsored] is optional. *)
Record Board : Type := {
  id : string;
  shaper : string;
  model : string;
  waveTypes : list string;
  abilities : list string;
  recommendedWeight : number * number;
  length : string;
  volume : number;
  tail : string;
  fins : string;
  construction : string;
  img : string;
  sponsored : option bool
}.

(** [arr.includes(x)] on an array of strings. *)
Definition includes (arr : list string) (x : string) : bool :=
  existsb (String.eqb x) arr.

(** Truthiness of an optional boolean: [!!b]. *)
Definition truthy (b : option bool) : bool :=
  match b with Some true => true | _ => false end.

(* ================================================================= *)
(** ** Logic helpers (lines 62-79) *)

Definition round1 (n : number) : number :=
  (Math_round (n * Num 10) / Num 10)%js.

Definition mult (ability : Ability) : Q * Q :=
  match ability with
  | beginner => (0.45, 0.55)
  | intermediate => (0.38, 0.47)
  | advanced => (0.3, 0.4)
  end%Q.

Definition heuristicVolume (weightKg : number) (ability : Ability)
  : number * number :=
  let '(a, b) := mult ability in
  (round1 (weightKg * Num a), round1 (weightKg * Num b))%js.

Definition scoreBoard (b : Board) (weight : number) (wave : WaveType)
           (ability : Ability) : number :=
  let '(minV, maxV) := heuristicVolume weight ability in
  let targetV := ((minV + maxV) / Num 2)%js in
  let volDiff := Math_abs (volume b - targetV) in
  let s := (Num 100 - Math_min volDiff (Num 40) * Num 1.5)%js in
  let s := if includes (waveTypes b) (WaveType_value wave)
           then (s + Num 10)%js else s in
  let s := if includes (abilities b) (Ability_value ability)
           then (s + Num 8)%js else s in
  let '(wMin, wMax) := recommendedWeight b in
  let s := if (weight >= wMin)%js && (weight <= wMax)%js
           then (s + Num 6)%js else (s - Num 6)%js in
  let s := if truthy (sponsored b) then (s + Num 3)%js else s in
  s.

(** The double quote character, as a one-character string. *)
Definition dquote : string := String (ascii_of_nat 34) EmptyString.

(** The fallback catalog (lines 55-59). *)
Definition FALLBACK_BOARDS : list Board :=
  [ {| id := "js-monsta-2024"; shaper := "JS Industries";
       model := "Monsta 2024";
       waveTypes := ["small_beach"; "mellow_point"; "punchy_reef"];
       abilities := ["intermediate"; "advanced"];
       recommendedWeight := (Num 65, Num 95);
       length := "6'0" ++ dquote; volume := Num 31.5; tail := "Squash";
       fins := "Thruster / 5-fin"; construction := "PU/PE";
       img := "https://images.unsplash.com/photo-1544551763-7ef420b9b04c?q=80&w=1200&auto=format&fit=crop";
       sponsored := None |};
    {| id := "ci-happy-everyday"; shaper := "Channel Islands";
       model := "Happy Everyday";
       waveTypes := ["small_beach"; "mellow_point"];
       abilities := ["beginner"; "intermediate"];
       recommendedWeight := (Num 55, Num 90);
       length := "5'10" ++ dquote; volume := Num 30.3; tail := "Rounded Squash";
       fins := "Thruster / Quad"; construction := "PU/PE / Spine-Tek";
       img := "https://images.unsplash.com/photo-1540932239986-30128078f3c5?q=80&w=1200&auto=format&fit=crop";
       sponsored := Some true |};
    {| id := "pyzel-ghost"; shaper := "Pyzel"; model := "Ghost";
       waveTypes := ["punchy_reef"; "overhead"];
       abilities := ["intermediate"; "advanced"];
       recommendedWeight := (Num 70, Num 105);
       length := "6'2" ++ dquote; volume := Num 32.8; tail := "Round";
       fins := "Thruster"; construction := "PU/PE / Epoxy";
       img := "https://images.unsplash.com/photo-1496545672447-f699b503d270?q=80&w=1200&auto=format&fit=crop";
       sponsored := None |} ]%string.

(* ================================================================= *)
(** ** JavaScript strings *)

Module JsString.

Local Open Scope string_scope.

Definition code (c : ascii) : N := N_of_ascii c.

(** White space of [trim], of [Number] and of the regular expression class
    [\s], among the code units below 256: TAB, LF, VT, FF, CR, the space and
    the no-break space. *)
Definition is_space (c : ascii) : bool :=
  ((9 <=? code c) && (code c <=? 13) || (code c =? 32) || (code c =? 160))%N.

Definition isEmpty (s : string) : bool :=
  match s with EmptyString => true | _ => false end.

(** A string is truthy when it is not empty: the test of [filter(Boolean)]
    and of [s ? _ : _]. *)
Definition nonEmpty (s : string) : bool := negb (isEmpty s).

Fixpoint trimStart (s : string) : string :=
  match s with
  | String c r => if is_space c then trimStart r else s
  | EmptyString => EmptyString
  end.

Fixpoint trimEnd (s : string) : string :=
  match s with
  | String c r =>
      let r' := trimEnd r in
      if is_space c && isEmpty r' then EmptyString else String c r'
  | EmptyString => EmptyString
  end.

(** [s.trim()] *)
Definition trim (s : string) : string := trimEnd (trimStart s).

(** The letters [A]-[Z] and the capital letters of the range 192-222 have
    their small letter 32 places further. *)
Definition lower_char (c : ascii) : ascii :=
  if ((65 <=? code c) && (code c <=? 90)
      || (192 <=? code c) && (code c <=? 222) && negb (code c =? 215))%N
  then ascii_of_N (code c + 32) else c.

(** [s.toLowerCase()] *)
Fixpoint toLowerCase (s : string) : string :=
  match s with
  | String c r => String (lower_char c) (toLowerCase r)
  | EmptyString => EmptyString
  end.

Definition push_front (c : ascii) (parts : list string) : list string :=
  match parts with
  | h :: t => String c h :: t
  | [] => [String c EmptyString]
  end.

(** [s.split(sep)] for a one-character separator. *)
Fixpoint split (sep : ascii) (s : string) : list string :=
  match s with
  | String c r =>
      if Ascii.eqb c sep then EmptyString :: split sep r
      else push_front c (split sep r)
  | EmptyString => [EmptyString]
  end.

Definition LF : ascii := "010"%char.
Definition CR : ascii := "013"%char.

(** [s.split(/\r?\n/)] *)
Fixpoint split_lines (s : string) : list string :=
  match s with
  | String c r =>
      if Ascii.eqb c LF then EmptyString :: split_lines r
      else if Ascii.eqb c CR then
        match r with
        | String c2 r2 =>
            if Ascii.eqb c2 LF then EmptyString :: split_lines r2
            else push_front c (split_lines r)
        | EmptyString => push_front c (split_lines r)
        end
      else push_front c (split_lines r)
  | EmptyString => [EmptyString]
  end.

(** [s.includes(c)] for a one-character needle. *)
Fixpoint includes_char (s : string) (c : ascii) : bool :=
  match s with
  | String d r => Ascii.eqb d c || includes_char r c
  | EmptyString => false
  end.

(** [s.replaceAll(c, "")] for a one-character pattern. *)
Fixpoint remove_char (c : ascii) (s : string) : string :=
  match s with
  | String d r =>
      if Ascii.eqb d c then remove_char c r else String d (remove_char c r)
  | EmptyString => EmptyString
  end.

(** [s.replace(/\s+/g, "-")]; [in_run] tells that the character before
    was white space already replaced. *)
Fixpoint dash_spaces (in_run : bool) (s : string) : string :=
  match s with
  | String c r =>
      if is_space c
      then if in_run then dash_spaces true r
           else String "-" (dash_spaces true r)
      else String c (dash_spaces false r)
  | EmptyString => EmptyString
  end.

(** [String(i)] for a natural number. *)
Definition of_nat (i : nat) : string := NilEmpty.string_of_uint (Nat.to_uint i).

(** *** [Number(s)]: the StringNumericLiteral grammar of ECMAScript *)

Definition digit_val (base : Z) (c : ascii) : option Z :=
  (let n := Z.of_N (code c) in
   let v := if (48 <=? n) && (n <=? 57) then Some (n - 48)
            else if (97 <=? n) && (n <=? 102) then Some (n - 87)
            else if (65 <=? n) && (n <=? 70) then Some (n - 55)
            else None in
   match v with
   | Some d => if d <? base then Some d else None
   | None => None
   end)%Z.

(** Reads the longest run of digits at the front of [s], continuing the
    value [acc]; returns the value, the number of digits read and the
    rest of the string. *)
Fixpoint read_digits (base : Z) (s : string) (acc : Z) (n : nat)
  : Z * nat * string :=
  match s with
  | String c r =>
      match digit_val base c with
      | Some d => read_digits base r (acc * base + d)%Z (S n)
      | None => (acc, n, s)
      end
  | EmptyString => (acc, n, s)
  end.

(** ExponentPart, optional, up to the end of the string. *)
Definition exponent_part (s : string) : option Z :=
  match s with
  | EmptyString => Some 0%Z
  | String c r =>
      if Ascii.eqb c "e" || Ascii.eqb c "E" then
        let '(sign, r') :=
          match r with
          | String "+" r1 => (1%Z, r1)
          | String "-" r1 => ((-1)%Z, r1)
          | _ => (1%Z, r)
          end in
        match read_digits 10 r' 0%Z 0%nat with
        | (v, S _, EmptyString) => Some (sign * v)%Z
        | _ => None
        end
      else None
  end.

(** StrUnsignedDecimalLiteral *)
Definition unsigned_decimal (s : string) : number :=
  if String.eqb s "Infinity" then PInf else
  let '(i, ni, r) := read_digits 10 s 0%Z 0%nat in
  let '(m, nf, r2) :=
    match r with
    | String "." r1 => read_digits 10 r1 i 0%nat
    | _ => (i, 0%nat, r)
    end in
  if (ni + nf =? 0)%nat then NaN else
  match exponent_part r2 with
  | Some e => Num (inject_Z m * 10 ^ (e - Z.of_nat nf)%Z)%Q
  | None => NaN
  end.

(** NonDecimalIntegerLiteral: [0x], [0o], [0b] and their capitals. *)
Definition non_decimal (s : string) : option number :=
  match s with
  | String "0" (String p r) =>
      let base :=
        if Ascii.eqb p "x" || Ascii.eqb p "X" then Some 16%Z
        else if Ascii.eqb p "o" || Ascii.eqb p "O" then Some 8%Z
        else if Ascii.eqb p "b" || Ascii.eqb p "B" then Some 2%Z
        else None in
      match base with
      | Some b =>
          Some match read_digits b r 0%Z 0%nat with
               | (v, S _, EmptyString) => Num (inject_Z v)
               | _ => NaN
               end
      | None => None
      end
  | _ => None
  end.

(** [Number(s)] *)
Definition Number (s : string) : number :=
  let t := trim s in
  if isEmpty t then Num 0%Q else
  match non_decimal t with
  | Some n => n
  | None =>
      match t with
      | String "+" r => unsigned_decimal r
      | String "-" r => neg (unsigned_decimal r)
      | _ => unsigned_decimal t
      end
  end.

End JsString.

Import JsString.

(* ================================================================= *)
(** ** CSV ingestion (lines 85-116) *)

Section Csv.

Local Open Scope string_scope.

(** The variables of the loop of [safeParseCSVRow]. *)
Record RowScan : Type := { out : list string; cur : string; inQ : bool }.

Definition scan_char (st : RowScan) (ch : ascii) : RowScan :=
  if Ascii.eqb ch (ascii_of_nat 34) then
    {| out := out st; cur := cur st; inQ := negb (inQ st) |}
  else if Ascii.eqb ch "," && negb (inQ st) then
    {| out := (out st ++ [cur st])%list; cur := ""; inQ := inQ st |}
  else
    {| out := out st; cur := cur st ++ String ch ""; inQ := inQ st |}.

Fixpoint scan_line (line : string) (st : RowScan) : RowScan :=
  match line with
  | String ch rest => scan_line rest (scan_char st ch)
  | EmptyString => st
  end.

(** [null] is [None]. *)
Definition safeParseCSVRow (line : string) (expected : nat)
  : option (list string) :=
  let st := scan_line line {| out := []; cur := ""; inQ := false |} in
  let out := (out st ++ [cur st])%list in
  if (expected <=? List.length out)%nat then Some out else None.

(** [headers.indexOf(k)]; [-1] is [None]. *)
Fixpoint indexOf (headers : list string) (k : string) : option nat :=
  match headers with
  | h :: t =>
      if String.eqb h k then Some 0%nat
      else option_map S (indexOf t k)
  | [] => None
  end.

(** [cols[idx(k)]]: [undefined] when the header has no column [k]. *)
Definition col (headers cols : list string) (k : string) : option string :=
  match indexOf headers k with
  | Some i => nth_error cols i
  | None => None
  end.

(** [x || d] for a cell [x]: the empty string and [undefined] are falsy. *)
Definition or_else (x : option string) (d : string) : string :=
  match x with
  | Some (String _ _ as v) => v
  | _ => d
  end.

(** [Number(x || 0)] *)
Definition Number_or_0 (x : option string) : number :=
  match x with
  | Some (String _ _ as v) => Number v
  | _ => Num 0%Q
  end.

(** [v ? (v.includes("|") ? v.split("|") : v.split(",")) : []] *)
Definition split_values (v : string) : list string :=
  if nonEmpty v
  then if includes_char v "|" then split "|" v else split "," v
  else [].

(** The object literal pushed for row [i] (lines 96-113). *)
Definition row_board (headers cols : list string) (i : nat) : Board :=
  let c := col headers cols in
  let wave := remove_char " " (or_else (c "waveTypes") "") in
  let abil := remove_char " " (or_else (c "abilities") "") in
  let sponsoredRaw := toLowerCase (or_else (c "sponsored") "") in
  {| id := or_else (c "id")
             (dash_spaces false
                (toLowerCase (or_else (c "shaper") "" ++ "-"
                              ++ or_else (c "model") (of_nat i))));
     shaper := or_else (c "shaper") "";
     model := or_else (c "model") "";
     waveTypes := split_values wave;
     abilities := split_values abil;
     recommendedWeight := (Number_or_0 (c "recommendedWeightMin"),
                           Number_or_0 (c "recommendedWeightMax"));
     length := or_else (c "length") "";
     volume := Number_or_0 (c "volume");
     tail := or_else (c "tail") "";
     fins := or_else (c "fins") "";
     construction := or_else (c "construction") "";
     img := or_else (c "img") "";
     sponsored := Some (includes ["1"; "true"; "yes"; "y"] sponsoredRaw) |}.

(** The [for] loop over [rows[i]], [rows[i+1]], ... with the boards
    pushed so far. *)
Fixpoint rows_loop (headers rows : list string) (i : nat)
         (acc : list Board) : list Board :=
  match rows with
  | r :: rest =>
      match safeParseCSVRow r (List.length headers) with
      | Some cols => rows_loop headers rest (S i)
                               (acc ++ [row_board headers cols i])%list
      | None => rows_loop headers rest (S i) acc
      end
  | [] => acc
  end.

Definition parseAirtableCSV (csv : string) : list Board :=
  match filter nonEmpty (split_lines csv) with
  | [] => []
  | header :: data =>
      let headers := map trim (split "," header) in
      rows_loop headers data 1 []
  end.

End Csv.

(* ================================================================= *)
(** ** The catalog loader (lines 19-21 and 128-148) *)

Inductive DataSource : Type := github | airtable.

Definition DataSource_value (d : DataSource) : string :=
  match d with github => "github" | airtable => "airtable" end.

Definition DATA_SOURCE : DataSource := github.

(** What [await fetch(url, {cache:"no-store"})] settles to: a rejection, or
    a response with its [ok] flag, its status and its body.  The transport
    is outside the embedding: the loader is a function of this outcome. *)
Inductive FetchOutcome : Type :=
| Rejected (message : string)
| Response (ok : bool) (status : nat) (body : string).

(** A thrown [Error]. *)
Inductive Thrown : Type := Error (message : string).

(** The state cells of the page that the loader writes. *)
Record PageState : Type := {
  boards : option (list Board);
  isLoading : bool;
  error : option string
}.

Definition initialState : PageState :=
  {| boards := None; isLoading := true; error := None |}.

Section Loader.

Local Open Scope string_scope.

(** [r.json()] read as [Board[]]; it rejects on a body that is not JSON. *)
Variable json : string -> Thrown + list Board.

(** The [try] block up to [data]: the thrown error or the boards. *)
Definition fetch_data (src : DataSource) (r : FetchOutcome)
  : Thrown + list Board :=
  match src, r with
  | _, Rejected m => inl (Error m)
  | airtable, Response ok status body =>
      if negb ok then inl (Error ("Airtable " ++ of_nat status))
      else inr (parseAirtableCSV body)
  | github, Response ok status body =>
      if negb ok then inl (Error ("GitHub " ++ of_nat status))
      else json body
  end.

(** One run of [load]; [cancelled] is the flag as the awaited work
    finds it when it resumes. *)
Definition load (src : DataSource) (r : FetchOutcome) (cancelled : bool)
           (st : PageState) : PageState :=
  let st := {| boards := boards st; isLoading := true; error := None |} in
  let st :=
    match fetch_data src r with
    | inr data =>
        if negb cancelled
        then {| boards := Some data; isLoading := isLoading st;
                error := error st |}
        else st
    | inl _ =>
        if negb cancelled
        then {| boards := Some FALLBACK_BOARDS; isLoading := isLoading st;
                error := Some ("Using sample data ("
                               ++ DataSource_value src
                               ++ " fetch failed)") |}
        else st
    end in
  if negb cancelled
  then {| boards := boards st; isLoading := false; error := error st |}
  else st.

(** The catalog and the warning a finished load leaves in the page. *)
Definition loadCatalog (src : DataSource) (r : FetchOutcome)
  : option (list Board) * option string :=
  let st := load src r false initialState in
  (boards st, error st).

End Loader.

(* ================================================================= *)
(** ** [Array.prototype.sort] *)

Section JsSort.

Variable A : Type.
Variable compareFn : A -> A -> number.

(** [x] is placed after [y] when [compareFn(x, y) > 0]; a comparator
    value of NaN counts as [0]. *)
Fixpoint insert (x : A) (l : list A) : list A :=
  match l with
  | y :: t => if (compareFn x y > Num 0)%js then y :: insert x t
              else x :: l
  | [] => [x]
  end.

Fixpoint js_sort (l : list A) : list A :=
  match l with
  | x :: t => insert x (js_sort t)
  | [] => []
  end.

End JsSort.

(* ================================================================= *)
(** ** The ranking pipeline (lines 150-174) *)

(** [{...b, _score}] *)
Record Scored : Type := { board :> Board; _score : number }.

Inductive SortMode : Type := sort_best | sort_volume | sort_sponsored.

Definition enriched (boards : option (list Board)) (weight : number)
           (wave : WaveType) (ability : Ability) : list Scored :=
  map (fun b => {| board := b; _score := scoreBoard b weight wave ability |})
      (match boards with Some l => l | None => [] end).

(** The variable [list] of the memo [filtered] before the [switch]. *)
Definition filtered_list (enriched : list Scored) (wave : WaveType)
           (ability : Ability) (minV maxV : number)
           (selectedShapers : list string) : list Scored :=
  let list := filter (fun b : Scored => includes (waveTypes b) (WaveType_value wave))
                     enriched in
  let list := filter (fun b : Scored => includes (abilities b) (Ability_value ability))
                     list in
  let list := filter (fun b : Scored => (volume b >= minV - Num 6)%js
                               && (volume b <= maxV + Num 6)%js) list in
  match selectedShapers with
  | _ :: _ => filter (fun b : Scored => includes selectedShapers (shaper b)) list
  | [] => list
  end.

Definition by_volume (target : number) (a b : Scored) : number :=
  (Math_abs (volume a - target) - Math_abs (volume b - target))%js.

Definition by_sponsored (a b : Scored) : number :=
  (of_bool (truthy (sponsored b)) - of_bool (truthy (sponsored a)))%js.

Definition by_score (a b : Scored) : number := (_score b - _score a)%js.

Definition filtered (enriched : list Scored) (wave : WaveType)
           (ability : Ability) (minV maxV : number) (sort : SortMode)
           (selectedShapers : list string) : list Scored :=
  let list := filtered_list enriched wave ability minV maxV selectedShapers in
  match sort with
  | sort_volume =>
      let target := ((minV + maxV) / Num 2)%js in
      js_sort (by_volume target) list
  | sort_sponsored => js_sort by_sponsored list
  | sort_best => js_sort by_score list
  end.

(** [{ shaper, board }] *)
Module Top.
Record t : Type := { shaper : string; board : Scored }.
End Top.

(** [Map<string, any[]>]: the entries in insertion order. *)
Definition ShaperMap : Type := list (string * list Scored).

Fixpoint map_has (m : ShaperMap) (k : string) : bool :=
  match m with
  | (k', _) :: t => String.eqb k' k || map_has t k
  | [] => false
  end.

(** [m.get(k).push(b)] *)
Fixpoint map_push (m : ShaperMap) (k : string) (b : Scored) : ShaperMap :=
  match m with
  | (k', arr) :: t =>
      if String.eqb k' k then (k', arr ++ [b]) :: t
      else (k', arr) :: map_push t k b
  | [] => []
  end.

(** The body of the loop of line 171. *)
Definition group_step (m : ShaperMap) (b : Scored) : ShaperMap :=
  let m := if negb (map_has m (shaper b)) then m ++ [(shaper b, [])] else m in
  map_push m (shaper b) b.

(** [Array.from(by.entries()).map(...)]; [None] stands for the [TypeError]
    that reading [_score] of [arr.sort(...)[0]] raises when that is
    [undefined]. *)
Fixpoint tops_of (entries : ShaperMap) : option (list Top.t) :=
  match entries with
  | (s, arr) :: rest =>
      match hd_error (js_sort by_score arr), tops_of rest with
      | Some b, Some r => Some ({| Top.shaper := s; Top.board := b |} :: r)
      | _, _ => None
      end
  | [] => Some []
  end.

Definition by_top_score (a b : Top.t) : number :=
  (_score (Top.board b) - _score (Top.board a))%js.

Definition topPicksByShaper (filtered : list Scored) : option (list Top.t) :=
  let m := fold_left group_step filtered [] in
  option_map (js_sort by_top_score) (tops_of m).

(** The inputs of the pipeline; [weight] is the value of
    [Number(weight||0)] of line 150. *)
Record UserQuery : Type := {
  weight : number;
  ability : Ability;
  wave : WaveType;
  sortMode : SortMode;
  brandFilter : list string
}.

Record Ranking : Type := {
  all : list Scored;
  topPerBrand : option (list Top.t)
}.

(** The two derived views as the component body computes them from the
    catalog and the inputs. *)
Definition rankCatalog (catalog : list Board) (query : UserQuery) : Ranking :=
  let '(minV, maxV) := heuristicVolume (weight query) (ability query) in
  let e := enriched (Some catalog) (weight query) (wave query)
                    (ability query) in
  let f := filtered e (wave query) (ability query) minV maxV
                    (sortMode query) (brandFilter query) in
  {| all := f; topPerBrand := topPicksByShaper f |}.


(* ================================================================= *)
(** ** URL normalisation (lines 20-21 and 80-84) *)

Section Url.

Local Open Scope string_scope.

Definition GITHUB_JSON_URL : string :=
  "https://github.com/DJenkin82/Surfboard-Finder/blob/main/Surfboard%20Finder.txt".

Definition AIRTABLE_CSV_URL : string :=
  "https://airtable.com/shrXXXXXXXXXXXXXX/tblXXXXXXXXXXXXXX/viwXXXXXXXXXXXXXX.csv".

(** [s.slice(n)] *)
Fixpoint drop (n : nat) (s : string) : string :=
  match n, s with
  | S m, String _ r => drop m r
  | _, _ => s
  end.

(** [s.replace(pat, rep)] for a string pattern and a replacement without
    [$]: the first occurrence of [pat] is replaced, the others stay. *)
Fixpoint replace_first (pat rep s : string) : string :=
  if prefix pat s then rep ++ drop (String.length pat) s
  else match s with
       | String c r => String c (replace_first pat rep r)
       | EmptyString => EmptyString
       end.

(** The characters that [.] does not match, among the code units below
    256. *)
Definition is_line_terminator (c : ascii) : bool :=
  Ascii.eqb c LF || Ascii.eqb c CR.

(** [.+\/blob\/] matched at the start of [s]; [seen] tells that [.+] has
    taken a character already. *)
Fixpoint dot_plus_blob (seen : bool) (s : string) : bool :=
  seen && prefix "/blob/" s
  || match s with
     | String c r => negb (is_line_terminator c) && dot_plus_blob true r
     | EmptyString => false
     end.

(** [/github\.com\/.+\/blob\//.test(s)] *)
Fixpoint github_blob_test (s : string) : bool :=
  prefix "github.com/" s && dot_plus_blob false (drop 11 s)
  || match s with
     | String _ r => github_blob_test r
     | EmptyString => false
     end.

Definition normalizeGithubRaw (url : string) : string :=
  if github_blob_test url
  then replace_first "/blob/" "/"
         (replace_first "https://github.com/"
                        "https://raw.githubusercontent.com/" url)
  else url.

(** The address that [load] fetches for a source. *)
Definition source_url (src : DataSource) : string :=
  match src with
  | airtable => AIRTABLE_CSV_URL
  | github => normalizeGithubRaw GITHUB_JSON_URL
  end.

End Url.

(* ================================================================= *)
(** ** The selections of the page (lines 152 and 176-178) *)

Section Selections.

(** [prev.filter(x => x !== id)] *)
Definition without (id : string) (prev : list string) : list string :=
  filter (fun x => negb (String.eqb x id)) prev.

Definition toggleCompare (id : string) (prev : list string) : list string :=
  if includes prev id then without id prev
  else if (List.length prev <? 4)%nat then prev ++ [id]
  else prev.

(** What the page does to [compareIds]: the checkbox of a card (line 176),
    the cross of the compare drawer (line 297) and its Clear button
    (line 299). *)
Inductive CompareAction : Type :=
| Toggle (id : string)
| Remove (id : string)
| Clear.

Definition setCompareIds (prev : list string) (a : CompareAction)
  : list string :=
  match a with
  | Toggle i => toggleCompare i prev
  | Remove i => without i prev
  | Clear => []
  end.

Definition selectedBoards (boards : option (list Board))
           (compareIds : list string) : list Board :=
  filter (fun b => includes compareIds (id b))
         (match boards with Some l => l | None => [] end).

Definition toggleShaper (s : string) (prev : list string) : list string :=
  if includes prev s then without s prev else prev ++ [s].

(** [new Set(arr)] read back with [Array.from]: the distinct values in the
    order of their first occurrence. *)
Definition set_add (acc : list string) (x : string) : list string :=
  if includes acc x then acc else acc ++ [x].

Definition Set_of (arr : list string) : list string :=
  fold_left set_add arr [].

(** The comparator of [sort()] without argument, on strings: the order of
    the code units. *)
Definition default_compare (x y : string) : number :=
  match String.compare x y with
  | Lt => Num (-1)
  | Eq => Num 0
  | Gt => Num 1
  end.

Definition allShapers (enriched : list Scored) : list string :=
  js_sort default_compare (Set_of (map (fun b : Scored => shaper b) enriched)).

(** The score a card shows: [Math.round(b._score)]. *)
Definition shown_score (b : Scored) : number := Math_round (_score b).

End Selections.
(* ================================================================= *)
(** ** Numbers as the engine holds them: IEEE 754 binary64

    [round1] and [heuristicVolume] once more, on doubles: every operation
    rounds to the nearest double, a tie going to the even mantissa.  The
    operations are those of the Standard Library's specification of
    floating-point arithmetic, at precision 53 with 1024 as the exponent
    of the infinities. *)

Module Binary64.

Definition prec : Z := 53.
Definition emax : Z := 1024.

Definition double : Type := spec_float.

(** [x * y] and [x / y] *)
Definition mul : double -> double -> double := SFmul prec emax.
Definition div : double -> double -> double := SFdiv prec emax.

(** The double of an integer. *)
Definition of_int (k : Z) : double := binary_normalize prec emax k 0 false.

(** A decimal literal of the source, [n / 10^k]: the double nearest to
    it. *)
Definition decimal (n : Z) (k : Z) : double :=
  div (of_int n) (of_int (10 ^ k)).

(** The rational a finite double stands for. *)
Definition value (x : double) : Q :=
  match x with
  | S754_finite s m e => (inject_Z (cond_Zopp s (Zpos m)) * 2 ^ e)%Q
  | _ => 0%Q
  end.




(** [Math.round(x)]: an integral or non-finite [x] is returned as it is;
    otherwise the integer nearest to [x], a tie going towards plus
    infinity, with the sign of [x] when that integer is zero. *)
Definition Math_round (x : double) : double :=
  match x with
  | S754_finite s m e =>
      if (0 <=? e)%Z then x
      else match Qfloor (value x + (1 # 2)) with
           | Z0 => S754_zero s
           | k => of_int k
           end
  | _ => x
  end.

Definition ten : double := of_int 10.

Definition round1 (n : double) : double :=
  div (Math_round (mul n ten)) ten.

Definition mult (ability : Ability) : double * double :=
  match ability with
  | beginner => (decimal 45 2, decimal 55 2)
  | intermediate => (decimal 38 2, decimal 47 2)
  | advanced => (decimal 3 1, decimal 4 1)
  end.

Definition heuristicVolume (weightKg : double) (ability : Ability)
  : double * double :=
  let '(a, b) := mult ability in
  (round1 (mul weightKg a), round1 (mul weightKg b)).

End Binary64.
(* ================================================================= *)
(** ** The pipeline on a store of arrays (lines 151-174)

    The arrays of the page are objects with an identity: [map], [filter]
    and [Array.from] create a new array, [sort] and [push] change the one
    they are called on.  Here every array lives in a store and is named by
    its address; the memos take and return addresses.  The objects inside
    the arrays are never assigned to, so they stay values. *)

Module Store.

Inductive Array : Type :=
  | BoardArray (l : list Board)    (* [Board[]] *)
  | ScoredArray (l : list Scored)  (* arrays of [{...b, _score}] *)
  | TopArray (l : list Top.t).     (* arrays of [{ shaper, board }] *)

Definition ref : Type := nat.

(** The array at address [r] is the element of index [r]. *)
Definition store : Type := list Array.

(** A computation on the store; [None] is a thrown [TypeError]. *)
Definition Run (A : Type) : Type := store -> option (A * store).

Definition ret {A : Type} (a : A) : Run A := fun h => Some (a, h).

Definition bind {A B : Type} (m : Run A) (f : A -> Run B) : Run B :=
  fun h => match m h with
           | Some (a, h') => f a h'
           | None => None
           end.

Definition throw {A : Type} : Run A := fun _ => None.

Notation "x <- m ;; f" := (bind m (fun x => f))
  (at level 61, m at next level, right associativity).
Notation "m ;;; f" := (bind m (fun _ => f))
  (at level 61, right associativity).

(** A new array, after all the others. *)
Definition new (a : Array) : Run ref :=
  fun h => Some (List.length h, h ++ [a]).

Definition get (r : ref) : Run Array :=
  fun h => match nth_error h r with
           | Some a => Some (a, h)
           | None => None
           end.

Fixpoint update (h : store) (r : ref) (a : Array) : store :=
  match h, r with
  | _ :: t, O => a :: t
  | x :: t, S r' => x :: update t r' a
  | [], _ => []
  end.

Definition put (r : ref) (a : Array) : Run unit :=
  fun h => Some (tt, update h r a).

Definition boards_at (r : ref) : Run (list Board) :=
  a <- get r ;;
  match a with BoardArray l => ret l | _ => throw end.

Definition scoreds_at (r : ref) : Run (list Scored) :=
  a <- get r ;;
  match a with ScoredArray l => ret l | _ => throw end.

Definition tops_at (r : ref) : Run (list Top.t) :=
  a <- get r ;;
  match a with TopArray l => ret l | _ => throw end.

(** [arr.filter(p)]: a new array. *)
Definition Array_filter (p : Scored -> bool) (arr : ref) : Run ref :=
  l <- scoreds_at arr ;;
  new (ScoredArray (filter p l)).

(** [arr.sort(compareFn)]: in place; the array itself is returned. *)
Definition Array_sort (compareFn : Scored -> Scored -> number) (arr : ref)
  : Run ref :=
  l <- scoreds_at arr ;;
  put arr (ScoredArray (js_sort compareFn l)) ;;;
  ret arr.

(** [arr.push(b)]: in place. *)
Definition Array_push (arr : ref) (b : Scored) : Run unit :=
  l <- scoreds_at arr ;;
  put arr (ScoredArray (l ++ [b])).

(** Line 151: [(boards||[]).map(b => ({...b, _score: scoreBoard(...)}))]. *)
Definition enriched (boards : option ref) (weight : number)
           (wave : WaveType) (ability : Ability) : Run ref :=
  arr <- match boards with
         | Some r => ret r
         | None => new (BoardArray [])
         end ;;
  l <- boards_at arr ;;
  new (ScoredArray
         (map (fun b => {| board := b;
                           _score := scoreBoard b weight wave ability |}) l)).

(** Lines 154-167. *)
Definition filtered (enriched : ref) (wave : WaveType) (ability : Ability)
           (minV maxV : number) (sort : SortMode)
           (selectedShapers : list string) : Run ref :=
  list <- Array_filter
            (fun b : Scored => includes (waveTypes b) (WaveType_value wave))
            enriched ;;
  list <- Array_filter
            (fun b : Scored => includes (abilities b) (Ability_value ability))
            list ;;
  list <- Array_filter
            (fun b : Scored => (volume b >= minV - Num 6)%js
                               && (volume b <= maxV + Num 6)%js) list ;;
  list <- match selectedShapers with
          | _ :: _ =>
              Array_filter
                (fun b : Scored => includes selectedShapers (shaper b)) list
          | [] => ret list
          end ;;
  match sort with
  | sort_volume =>
      let target := ((minV + maxV) / Num 2)%js in
      Array_sort (by_volume target) list
  | sort_sponsored => Array_sort by_sponsored list
  | sort_best => Array_sort by_score list
  end.

(** [Map<string, any[]>]: the keys in insertion order, each with the
    address of its array.  The map is local to the memo. *)
Definition RefMap : Type := list (string * ref).

Fixpoint has (m : RefMap) (k : string) : bool :=
  match m with
  | (k', _) :: t => String.eqb k' k || has t k
  | [] => false
  end.

Fixpoint lookup (m : RefMap) (k : string) : option ref :=
  match m with
  | (k', r) :: t => if String.eqb k' k then Some r else lookup t k
  | [] => None
  end.

(** The body of the loop of line 171. *)
Definition group_step (by_ : RefMap) (b : Scored) : Run RefMap :=
  by_ <- (if negb (has by_ (shaper b))
          then arr <- new (ScoredArray []) ;; ret (by_ ++ [(shaper b, arr)])
          else ret by_) ;;
  match lookup by_ (shaper b) with
  | Some arr => Array_push arr b ;;; ret by_
  | None => throw
  end.

Fixpoint for_of (l : list Scored) (by_ : RefMap) : Run RefMap :=
  match l with
  | b :: t => by_ <- group_step by_ b ;; for_of t by_
  | [] => ret by_
  end.

(** [Array.from(by.entries()).map(([shaper, arr]) => ...)]: each array is
    sorted in place and its first element taken; an [undefined] first
    element throws as in the list model. *)
Fixpoint tops_of (entries : RefMap) : Run (list Top.t) :=
  match entries with
  | (s, arr) :: rest =>
      arr <- Array_sort by_score arr ;;
      l <- scoreds_at arr ;;
      match hd_error l with
      | Some b =>
          r <- tops_of rest ;;
          ret ({| Top.shaper := s; Top.board := b |} :: r)
      | None => throw
      end
  | [] => ret []
  end.

(** Lines 169-174. *)
Definition topPicksByShaper (filtered : ref) : Run ref :=
  l <- scoreds_at filtered ;;
  by_ <- for_of l [] ;;
  tops <- tops_of by_ ;;
  arr <- new (TopArray tops) ;;
  l <- tops_at arr ;;
  put arr (TopArray (js_sort by_top_score l)) ;;;
  ret arr.

(** The two views, as addresses, computed from the catalog at address
    [boards]. *)
Definition rankCatalog (boards : ref) (query : UserQuery) : Run (ref * ref) :=
  let '(minV, maxV) := heuristicVolume (weight query) (ability query) in
  e <- enriched (Some boards) (weight query) (wave query) (ability query) ;;
  f <- filtered e (wave query) (ability query) minV maxV
                (sortMode query) (brandFilter query) ;;
  t <- topPicksByShaper f ;;
  ret (f, t).

End Store.
(* ================================================================= *)
(** * The vocabulary of the specification *)

(** ** The score *)

Definition num_le_dec (x y : number) : {num_le x y} + {~ num_le x y}.
Proof.
  destruct x as [a| | |], y as [b| | |]; simpl;
    try (left; exact I); try (right; exact (fun H : False => H)).
  destruct (Qlt_le_dec b a) as [H | H].
  - right. apply Qlt_not_le, H.
  - left. exact H.
Defined.

(** [lo <= x <= hi], both ends included. *)
Definition within (lo hi x : number) : Prop := num_le lo x /\ num_le x hi.

Definition within_dec (lo hi x : number)
  : {within lo hi x} + {~ within lo hi x}.
Proof.
  unfold within.
  destruct (num_le_dec lo x) as [H1 | H1];
    [destruct (num_le_dec x hi) as [H2 | H2] |].
  - left. split; assumption.
  - right. intros [_ H]. exact (H2 H).
  - right. intros [H _]. exact (H1 H).
Defined.

Definition flag_dec (x y : option bool) : {x = y} + {x <> y}.
Proof. decide equality. apply bool_dec. Defined.

(** The target volume: the midpoint of the heuristic range. *)
Definition targetVolume (weight : number) (ability : Ability) : number :=
  ((fst (heuristicVolume weight ability)
    + snd (heuristicVolume weight ability)) / Num 2)%js.

(** The score as the sum of its five terms. *)
Definition score_formula (b : Board) (weight : number) (wave : WaveType)
           (ability : Ability) : number :=
  let targetV := targetVolume weight ability in
  let closeness :=
    (Num 100 - Math_min (Math_abs (volume b - targetV)) (Num 40) * Num 1.5)%js in
  let waveBonus :=
    if in_dec string_dec (WaveType_value wave) (waveTypes b)
    then Num 10 else Num 0 in
  let abilityBonus :=
    if in_dec string_dec (Ability_value ability) (abilities b)
    then Num 8 else Num 0 in
  let weightBonus :=
    if within_dec (fst (recommendedWeight b)) (snd (recommendedWeight b)) weight
    then Num 6 else Num (-6) in
  let sponsoredBonus :=
    if flag_dec (sponsored b) (Some true) then Num 3 else Num 0 in
  (closeness + waveBonus + abilityBonus + weightBonus + sponsoredBonus)%js.

(** A board at the target volume, matching on every count and sponsored. *)
Definition perfect_match : Board :=
  {| id := "perfect"; shaper := "Any"; model := "Any";
     waveTypes := ["mellow_point"]; abilities := ["intermediate"];
     recommendedWeight := (Num 70, Num 90);
     length := ""; volume := Num 34; tail := ""; fins := "";
     construction := ""; img := ""; sponsored := Some true |}%string.

(** A board far from the target volume that matches on no count. *)
Definition poor_match : Board :=
  {| id := "poor"; shaper := "Any"; model := "Any";
     waveTypes := ["overhead"]; abilities := ["advanced"];
     recommendedWeight := (Num 40, Num 60);
     length := ""; volume := Num 90; tail := ""; fins := "";
     construction := ""; img := ""; sponsored := None |}%string.

(** ** The volume heuristic *)

(** The fraction pairs of the three abilities. *)
Definition fractions (ability : Ability) : Q * Q :=
  match ability with
  | beginner => (45 # 100, 55 # 100)
  | intermediate => (38 # 100, 47 # 100)
  | advanced => (3 # 10, 4 # 10)
  end.



(** ** Ranking *)

Section ByScore.

Variable A : Type.
Variable score : A -> number.

(** The comparator that puts the larger score first. *)
Definition desc (a b : A) : number := (score b - score a)%js.

Definition finite_scores (l : list A) : Prop :=
  Forall (fun x => is_finite (score x) = true) l.

(** [x] is the first element of [l] whose score is the largest: everything
    before it is strictly smaller, everything after it is not larger. *)
Definition first_largest (l : list A) (x : A) : Prop :=
  exists l1 l2 : list A,
    l = l1 ++ x :: l2
    /\ Forall (fun y => num_lt (score y) (score x)) l1
    /\ Forall (fun y => num_le (score y) (score x)) l2.

End ByScore.

(** The boards of a list that are sponsored, and those that are not. *)
Definition is_sponsored (b : Scored) : bool := truthy (sponsored b).

Definition not_sponsored (b : Scored) : bool := negb (truthy (sponsored b)).

(** The boards of one brand, in the order of the list. *)
Definition brand_group (s : string) (l : list Scored) : list Scored :=
  filter (fun b : Scored => String.eqb s (shaper b)) l.

(** The score of a top pick. *)
Definition top_score (t : Top.t) : number := _score (Top.board t).

(** The inputs the page starts with (lines 120-124), under the sort mode
    that puts sponsored boards first. *)
Definition sample_query : UserQuery :=
  {| weight := Num 80; ability := intermediate; wave := mellow_point;
     sortMode := sort_sponsored; brandFilter := [] |}.

(** ** CSV ingestion *)

Definition newline : string := String LF EmptyString.

(** A non-empty line of the feed below the header line that is not dropped:
    [headers] are the trimmed names of the header line and [cols] the
    fields of the line. *)
Definition kept_row (csv : string) (headers cols : list string) : Prop :=
  exists (header : string) (data : list string) (row : string),
    filter nonEmpty (split_lines csv) = header :: data
    /\ headers = map trim (split "," header)
    /\ In row data
    /\ safeParseCSVRow row (List.length headers) = Some cols.

(** The value of a numeric field for a cell: [0] for a cell that is missing
    or empty, the conversion of the text otherwise. *)
Definition numeric_cell (cell : option string) : number :=
  match cell with
  | None => Num 0
  | Some s => if String.eqb s "" then Num 0 else Number s
  end.

(** The values that make [sponsored] true. *)
Definition sponsored_words : list string := ["1"; "true"; "yes"; "y"]%string.

(** A feed whose only numeric cell holds text. *)
Definition csv_text_volume : string := ("volume" ++ newline ++ "abc")%string.

(** A feed whose [sponsored] cell is [true] after a space. *)
Definition csv_spaced_sponsored : string :=
  ("sponsored" ++ newline ++ " true")%string.

(** ** The catalog loader *)

(** The warning that names the source kind that failed. *)
Definition warning (src : DataSource) : string :=
  ("Using sample data (" ++ DataSource_value src ++ " fetch failed)")%string.

(** A JSON decoder that rejects every body. *)
Definition json_rejects (body : string) : Thrown + list Board :=
  inl (Error "Unexpected end of JSON input").

(** ** What ECMAScript asks of [Array.prototype.sort] *)

Section SortSpec.

Context {A : Type}.
Variable compareFn : A -> A -> number.





End SortSpec.

(** The rational a finite number holds. *)
Definition rational (x : number) : Q :=
  match x with Num q => q | _ => 0 end.


(* ================================================================= *)
(** * Further vocabulary *)

(** The distance of a board's volume to a target. *)
Definition volume_distance (target : number) (b : Board) : number :=
  Math_abs (volume b - target)%js.

(** Two boards that differ in volume at most. *)
Definition same_but_volume (b1 b2 : Board) : Prop :=
  waveTypes b1 = waveTypes b2
  /\ abilities b1 = abilities b2
  /\ recommendedWeight b1 = recommendedWeight b2
  /\ sponsored b1 = sponsored b2.

(** A query with another sort mode. *)
Definition with_sort (q : UserQuery) (s : SortMode) : UserQuery :=
  {| weight := weight q; ability := ability q; wave := wave q;
     sortMode := s; brandFilter := brandFilter q |}.

(** The fallback board of Channel Islands with another volume. *)
Definition happy_everyday (v : Q) : Board :=
  {| id := "ci-happy-everyday"; shaper := "Channel Islands";
     model := "Happy Everyday";
     waveTypes := ["small_beach"; "mellow_point"];
     abilities := ["beginner"; "intermediate"];
     recommendedWeight := (Num 55, Num 90);
     length := ""; volume := Num v; tail := "Rounded Squash";
     fins := "Thruster / Quad"; construction := "PU/PE / Spine-Tek";
     img := ""; sponsored := Some true |}%string.

(** A board of the catalog with its score for a query. *)
Definition scored (q : UserQuery) (b : Board) : Scored :=
  {| board := b;
     _score := scoreBoard b (weight q) (wave q) (ability q) |}.

(** The page's first query, under the sort mode [best]. *)
Definition best_query : UserQuery := with_sort sample_query sort_best.

(** ** CSV text *)

(** The character [c] does not occur in [s]. *)
Definition free_of (c : ascii) (s : string) : Prop := includes_char s c = false.

Definition quote_char : ascii := ascii_of_nat 34.

(** A cell written bare, or between double quotes. *)
Definition write_cell (cell : bool * string) : string :=
  if fst cell then (dquote ++ snd cell ++ dquote)%string else snd cell.

(** A cell that can be written: it holds no double quote, and no comma
    unless it is written between quotes. *)
Definition writable (cell : bool * string) : Prop :=
  free_of quote_char (snd cell)
  /\ (fst cell = false -> free_of ","%char (snd cell)).

(** A line of text: it holds neither LF nor CR. *)
Definition one_line (s : string) : Prop := free_of LF s /\ free_of CR s.

Definition CRLF : string := String CR (String LF EmptyString).

(** The board of a numbered line of the feed, if the line is kept. *)
Definition board_of_line (headers : list string) (line : nat * string)
  : list Board :=
  match safeParseCSVRow (snd line) (List.length headers) with
  | Some cols => [row_board headers cols (fst line)]
  | None => []
  end.

(** The boards of a feed, line by line: the lines that are not empty are
    numbered from 0, line 0 is the header. *)
Definition boards_of_feed (csv : string) : list Board :=
  match filter nonEmpty (split_lines csv) with
  | [] => []
  | header :: data =>
      flat_map (board_of_line (map trim (split "," header)))
               (combine (seq 1 (List.length data)) data)
  end.

(** The text [c] put in front of the first part. *)
Definition prepend (c : string) (parts : list string) : list string :=
  match parts with
  | h :: t => (c ++ h)%string :: t
  | [] => [c]
  end.

(** Two cells, the second of which holds a comma and is written between
    quotes. *)
Definition two_cells : list (bool * string) :=
  [(false, "JS"); (true, "beginner, advanced")]%string.

(** A feed of a header line and one board, for the line-ending facts. *)
Definition two_lines : list string :=
  ["shaper,model,volume"; "Pyzel,Ghost,32.8"]%string.

(** ** Addresses *)

(** The text [pat] occurs in [s]. *)
Fixpoint occurs (pat s : string) : bool :=
  prefix pat s
  || match s with
     | String _ r => occurs pat r
     | EmptyString => false
     end.

(** A segment of a path: a text of one line that is not empty, holds no
    slash and is not the word [blob]. *)
Definition path_segment (s : string) : Prop :=
  free_of "/"%char s /\ one_line s /\ s <> EmptyString /\ s <> "blob"%string.

(** The owner and the repository of the configured feed. *)
Definition feed_repository : list string :=
  ["DJenkin82"; "Surfboard-Finder"]%string.

(** ** Selections *)

(** The selection after a sequence of actions on the empty selection. *)
Definition selection_after (actions : list CompareAction) : list string :=
  fold_left setCompareIds actions [].

(** The order of the code units on strings. *)
Definition string_lt (a b : string) : Prop := String.compare a b = Lt.

(** A query with another brand filter. *)
Definition with_brands (q : UserQuery) (brands : list string) : UserQuery :=
  {| weight := weight q; ability := ability q; wave := wave q;
     sortMode := sortMode q; brandFilter := brands |}.

(** The first value bound to a name in a list of named cells. *)
Fixpoint named_cell (cells : list (string * string)) (k : string)
  : option string :=
  match cells with
  | (h, v) :: t => if String.eqb h k then Some v else named_cell t k
  | [] => None
  end.


(** ** The volume heuristic on doubles *)








(** ** Rounding a located value *)


(* ================================================================= *)
(** * Properties *)

Unset Implicit Arguments.

(** ** The model on concrete inputs *)

Section Examples.

Local Open Scope string_scope.

Example round_ties_go_up :
  map Math_round [Num 2.5; Num (-2.5); Num (-1.5); Num 0.4; Num (-0.6)]
  = [Num 3; Num (-2); Num (-1); Num 0; Num (-1)].
Proof. reflexivity. Qed.

Example nan_compares_false :
  ((NaN <= Num 1)%js, (Num 1 <= NaN)%js, (NaN > Num 0)%js, Math_min NaN (Num 40))
  = (false, false, false, NaN).
Proof. reflexivity. Qed.

Example number_of_text :
  map Number ["12"; " 31.5 "; "-0.5e1"; ".5"; "5."; "0x1F"; ""; "   ";
              "Infinity"; "-Infinity"]
  = [Num 12; Num 31.5; Num (-5); Num 0.5; Num 5; Num 31; Num 0; Num 0;
     PInf; NInf].
Proof. reflexivity. Qed.

Example number_of_other_text :
  map Number ["abc"; "1e"; "1 2"; "+.e1"; "0b102"; "12px"; "-0x10"; "."]
  = [NaN; NaN; NaN; NaN; NaN; NaN; NaN; NaN].
Proof. reflexivity. Qed.

Example lines_of_a_feed :
  split_lines ("a" ++ String CR (String LF "b") ++ String LF (String LF "c"))
  = ["a"; "b"; ""; "c"].
Proof. reflexivity. Qed.

Example quoted_commas :
  safeParseCSVRow ("x," ++ dquote ++ "beginner, advanced" ++ dquote ++ ",y") 3
  = Some ["x"; "beginner, advanced"; "y"].
Proof. reflexivity. Qed.

Example short_row_is_dropped : safeParseCSVRow "a,b" 3 = None.
Proof. reflexivity. Qed.

Example a_feed_of_two_rows :
  map (fun b => (id b, shaper b, abilities b, recommendedWeight b, volume b,
                 sponsored b))
      (parseAirtableCSV
         ("id,shaper , model,abilities,recommendedWeightMin,recommendedWeightMax,volume,sponsored"
          ++ String LF "a1,JS,Monsta," ++ dquote ++ "beginner, advanced" ++ dquote
          ++ ",65,95,31.5,YES"
          ++ String LF "short,row"
          ++ String LF ",Big Co,The  Model,,x,,abc,no"))
  = [("a1", "JS", ["beginner"; "advanced"], (Num 65, Num 95), Num 31.5,
      Some true);
     ("big-co-the-model", "Big Co", [], (NaN, Num 0), NaN, Some false)].
Proof. reflexivity. Qed.

Example fallback_scores :
  map (fun b => scoreBoard b (Num 80) mellow_point intermediate)
      FALLBACK_BOARDS
  = [Num (2405000 # 20000); Num (2429000 # 20000); Num (2244000 # 20000)].
Proof. reflexivity. Qed.

Example fallback_ranking :
  let query s := {| weight := Num 80; ability := intermediate;
                    wave := mellow_point; sortMode := s; brandFilter := [] |} in
  map (fun s => map (fun sb : Scored => id sb)
                    (all (rankCatalog FALLBACK_BOARDS (query s))))
      [sort_best; sort_volume; sort_sponsored]
  = [["ci-happy-everyday"; "js-monsta-2024"];
     ["js-monsta-2024"; "ci-happy-everyday"];
     ["ci-happy-everyday"; "js-monsta-2024"]].
Proof. reflexivity. Qed.

Example fallback_top_picks :
  option_map (map (fun t => (Top.shaper t, id (Top.board t))))
             (topPerBrand (rankCatalog (FALLBACK_BOARDS ++ FALLBACK_BOARDS)
                                       {| weight := Num 80;
                                          ability := intermediate;
                                          wave := mellow_point;
                                          sortMode := sort_volume;
                                          brandFilter := [] |}))
  = Some [("Channel Islands", "ci-happy-everyday");
          ("JS Industries", "js-monsta-2024")].
Proof. reflexivity. Qed.

End Examples.


(** ** Numbers *)

Section NumberFacts.

Lemma num_eq_refl (x : number) : x =j= x.
Proof. destruct x; simpl; auto with qarith. Qed.

Lemma num_eq_sym (x y : number) : x =j= y -> y =j= x.
Proof. destruct x, y; simpl; auto with qarith. Qed.

Lemma num_eq_trans (x y z : number) : x =j= y -> y =j= z -> x =j= z.
Proof.
  destruct x, y, z; simpl; try tauto. intros H1 H2. now rewrite H1.
Qed.

Lemma le_spec (x y : number) : (x <= y)%js = true <-> num_le x y.
Proof.
  destruct x, y; simpl; try (split; [discriminate | tauto]); try tauto.
  apply Qle_bool_iff.
Qed.

Lemma gt_spec (x y : number) : (x > y)%js = true <-> num_lt y x.
Proof.
  destruct x as [a| | |], y as [b| | |]; simpl;
    try (split; [discriminate | tauto]); try tauto.
  rewrite negb_true_iff, <- not_true_iff_false, Qle_bool_iff.
  split; [apply Qnot_le_lt | apply Qlt_not_le].
Qed.

Lemma add_zero_r (x : number) : (x + Num 0)%js =j= x.
Proof. destruct x; simpl; trivial. ring. Qed.

Lemma add_compat_l (x y c : number) : x =j= y -> (x + c)%js =j= (y + c)%js.
Proof.
  destruct x, y, c; simpl; try tauto. intros H. now rewrite H.
Qed.

Lemma includes_In (arr : list string) (x : string) :
  includes arr x = true <-> In x arr.
Proof.
  unfold includes. rewrite existsb_exists. split.
  - intros [y [Hy E]]. apply String.eqb_eq in E. now subst.
  - intros H. exists x. split; trivial. apply String.eqb_refl.
Qed.

Lemma truthy_true (o : option bool) : truthy o = true <-> o = Some true.
Proof.
  destruct o as [[|]|]; simpl; split; congruence.
Qed.

End NumberFacts.

(** ** The score *)

Section ScoreFacts.

Lemma scoreBoard_unfold (b : Board) (weight : number) (wave : WaveType)
      (ability : Ability) :
  scoreBoard b weight wave ability =
  (let s := (Num 100 - Math_min (Math_abs (volume b - targetVolume weight ability))
                                (Num 40) * Num 1.5)%js in
   let s := if includes (waveTypes b) (WaveType_value wave)
            then (s + Num 10)%js else s in
   let s := if includes (abilities b) (Ability_value ability)
            then (s + Num 8)%js else s in
   let s := if (weight >= fst (recommendedWeight b))%js
               && (weight <= snd (recommendedWeight b))%js
            then (s + Num 6)%js else (s - Num 6)%js in
   if truthy (sponsored b) then (s + Num 3)%js else s).
Proof.
  unfold scoreBoard, targetVolume.
  destruct (heuristicVolume weight ability) as [minV maxV].
  destruct (recommendedWeight b) as [wMin wMax]. reflexivity.
Qed.

Lemma weight_test_within (weight lo hi : number) :
  (weight >= lo)%js && (weight <= hi)%js = true <-> within lo hi weight.
Proof.
  unfold within, ge. now rewrite andb_true_iff, !le_spec.
Qed.

Lemma includes_reflect (arr : list string) (x : string) :
  reflect (In x arr) (includes arr x).
Proof. apply iff_reflect. symmetry. apply includes_In. Qed.

Lemma weight_test_reflect (weight lo hi : number) :
  reflect (within lo hi weight) ((weight >= lo)%js && (weight <= hi)%js).
Proof. apply iff_reflect. symmetry. apply weight_test_within. Qed.

Lemma truthy_reflect (o : option bool) : reflect (o = Some true) (truthy o).
Proof. apply iff_reflect. symmetry. apply truthy_true. Qed.

Lemma scoreBoard_is_formula (b : Board) (weight : number) (wave : WaveType)
      (ability : Ability) :
  scoreBoard b weight wave ability =j= score_formula b weight wave ability.
Proof.
  rewrite scoreBoard_unfold. unfold score_formula. cbv zeta.
  set (base := (Num 100 - _)%js).
  destruct (includes_reflect (waveTypes b) (WaveType_value wave));
    destruct (in_dec string_dec _ (waveTypes b)); try contradiction;
  destruct (includes_reflect (abilities b) (Ability_value ability));
    destruct (in_dec string_dec _ (abilities b)); try contradiction;
  destruct (weight_test_reflect weight (fst (recommendedWeight b))
                                (snd (recommendedWeight b)));
    destruct (within_dec _ _ weight); try contradiction;
  destruct (truthy_reflect (sponsored b));
    destruct (flag_dec (sponsored b) (Some true)); try contradiction;
  destruct base as [q| | |]; simpl; trivial; ring.
Qed.

Lemma round1_finite (q : Q) :
  round1 (Num q) = Num (inject_Z (Qfloor (q * 10 + (1 # 2))) / 10).
Proof. reflexivity. Qed.

Lemma heuristicVolume_finite (w : Q) (ability : Ability) :
  heuristicVolume (Num w) ability =
  (Num (inject_Z (Qfloor (w * fst (mult ability) * 10 + (1 # 2))) / 10),
   Num (inject_Z (Qfloor (w * snd (mult ability) * 10 + (1 # 2))) / 10)).
Proof. destruct ability; reflexivity. Qed.

Lemma targetVolume_finite (w : Q) (ability : Ability) :
  exists t : Q, targetVolume (Num w) ability = Num t.
Proof.
  unfold targetVolume. rewrite heuristicVolume_finite. simpl.
  eexists. reflexivity.
Qed.

Lemma targetVolume_infinite (ability : Ability) :
  targetVolume PInf ability = PInf /\ targetVolume NInf ability = NInf.
Proof. destruct ability; split; reflexivity. Qed.

(** The capped distance to the target is a rational between 0 and 40. *)
Lemma capped_distance (v : Q) (weight : number) (ability : Ability) :
  is_nan weight = false ->
  exists m : Q,
    Math_min (Math_abs (Num v - targetVolume weight ability)) (Num 40) = Num m
    /\ 0 <= m <= 40.
Proof.
  intros Hw. destruct weight as [w| | |]; try discriminate.
  - destruct (targetVolume_finite w ability) as [t ->].
    cbn [sub add neg Math_abs Math_min le].
    destruct (Qle_bool (Qabs (v + - t)) 40) eqn:E.
    + eexists. split; [reflexivity |]. split.
      * apply Qabs_nonneg.
      * now apply Qle_bool_iff.
    + exists 40. split; [reflexivity | lra].
  - rewrite (proj1 (targetVolume_infinite ability)). exists 40.
    split; [reflexivity | lra].
  - rewrite (proj2 (targetVolume_infinite ability)). exists 40.
    split; [reflexivity | lra].
Qed.

Lemma scoreBoard_range (b : Board) (weight : number) (wave : WaveType)
      (ability : Ability) :
  is_finite (volume b) = true ->
  is_nan weight = false ->
  exists s : Q,
    scoreBoard b weight wave ability = Num s /\ 34 <= s <= 127.
Proof.
  intros Hv Hw.
  rewrite scoreBoard_unfold. cbv zeta.
  destruct (volume b) as [v| | |]; try discriminate.
  destruct (capped_distance v weight ability Hw) as [m [-> [Hm0 Hm40]]].
  destruct (includes (waveTypes b) _), (includes (abilities b) _),
    ((weight >= _)%js && _), (truthy _); cbn [sub add neg mul];
    eexists; (split; [reflexivity | lra]).
Qed.

End ScoreFacts.

(** C1.  For every board and every weight, wave and ability, the score is
    [100 - min(|volume - targetV|, 40) * 1.5], plus 10 when the wave is
    among the board's wave types, plus 8 when the ability is among its
    abilities, plus 6 when the weight lies within the recommended weight
    range (both ends included) and minus 6 otherwise, plus 3 when the board
    is sponsored, with [targetV] the midpoint of the heuristic range.  In
    particular a board whose volume is the target, matching on wave, on
    ability and on weight, and sponsored, scores 127. *)
Theorem scoreBoard_formula :
  forall (b : Board) (weight : number) (wave : WaveType) (ability : Ability),
    scoreBoard b weight wave ability =j= score_formula b weight wave ability
    /\ (is_finite (volume b) = true ->
        volume b =j= targetVolume weight ability ->
        In (WaveType_value wave) (waveTypes b) ->
        In (Ability_value ability) (abilities b) ->
        within (fst (recommendedWeight b)) (snd (recommendedWeight b)) weight ->
        sponsored b = Some true ->
        scoreBoard b weight wave ability =j= Num 127).
Proof.
  intros b weight wave ability. split; [apply scoreBoard_is_formula |].
  intros Hfin Hvol Hwave Habil Hrange Hsp.
  rewrite scoreBoard_unfold. cbv zeta.
  rewrite (proj2 (includes_In _ _) Hwave), (proj2 (includes_In _ _) Habil),
    (proj2 (weight_test_within _ _ _) Hrange), (proj2 (truthy_true _) Hsp).
  destruct (volume b) as [v| | |]; try discriminate.
  destruct (targetVolume weight ability) as [t| | |]; simpl in Hvol;
    try contradiction.
  assert (Hd : Qabs (v + - t) == 0).
  { rewrite Hvol. setoid_replace (t + - t) with 0 by ring. reflexivity. }
  cbn [sub add neg mul Math_abs Math_min le].
  destruct (Qle_bool (Qabs (v + - t)) 40) eqn:E.
  - cbn [sub add neg mul num_eq]. rewrite Hd. reflexivity.
  - exfalso. apply not_true_iff_false in E. apply E, Qle_bool_iff.
    rewrite Hd. discriminate.
Qed.

Lemma scoreBoard_formula_witness :
  is_finite (volume perfect_match) = true
  /\ volume perfect_match =j= targetVolume (Num 80) intermediate
  /\ In (WaveType_value mellow_point) (waveTypes perfect_match)
  /\ In (Ability_value intermediate) (abilities perfect_match)
  /\ within (fst (recommendedWeight perfect_match))
            (snd (recommendedWeight perfect_match)) (Num 80)
  /\ sponsored perfect_match = Some true
  /\ scoreBoard perfect_match (Num 80) mellow_point intermediate =j= Num 127.
Proof.
  assert (H1 : is_finite (volume perfect_match) = true) by reflexivity.
  assert (H2 : volume perfect_match =j= targetVolume (Num 80) intermediate)
    by reflexivity.
  assert (H3 : In (WaveType_value mellow_point) (waveTypes perfect_match))
    by (simpl; auto).
  assert (H4 : In (Ability_value intermediate) (abilities perfect_match))
    by (simpl; auto).
  assert (H5 : within (fst (recommendedWeight perfect_match))
                      (snd (recommendedWeight perfect_match)) (Num 80))
    by (split; simpl; discriminate).
  assert (H6 : sponsored perfect_match = Some true) by reflexivity.
  repeat (split; [assumption |]).
  exact (proj2 (scoreBoard_formula perfect_match (Num 80) mellow_point
                                   intermediate) H1 H2 H3 H4 H5 H6).
Defined.


(** C10.  For a board whose volume is finite and a weight that is a number,
    the score lies between 34 and 127, both included; it is never
    negative. *)
Theorem scoreBoard_bounds :
  forall (b : Board) (weight : number) (wave : WaveType) (ability : Ability),
    is_finite (volume b) = true ->
    is_nan weight = false ->
    exists s : Q,
      scoreBoard b weight wave ability = Num s /\ 34 <= s <= 127 /\ 0 <= s.
Proof.
  intros b weight wave ability Hv Hw.
  destruct (scoreBoard_range b weight wave ability Hv Hw) as [s [Hs Hb]].
  exists s. split; [exact Hs |]. split; [exact Hb | lra].
Qed.

Lemma scoreBoard_bounds_witness :
  is_finite (volume perfect_match) = true
  /\ is_nan (Num 80) = false
  /\ exists s : Q,
       scoreBoard perfect_match (Num 80) mellow_point intermediate = Num s
       /\ 34 <= s <= 127 /\ 0 <= s.
Proof.
  split; [reflexivity |]. split; [reflexivity |].
  apply scoreBoard_bounds; reflexivity.
Defined.

(** Both bounds are reached. *)
Example score_reaches_bounds :
  scoreBoard poor_match (Num 80) mellow_point intermediate =j= Num 34
  /\ scoreBoard perfect_match (Num 80) mellow_point intermediate =j= Num 127.
Proof. split; reflexivity. Qed.

(** ** Rounding on doubles *)

Section Binary64Rounding.
Import Binary64.
Local Open Scope Z_scope.




Local Open Scope Q_scope.

































Lemma signed_scale (sg : bool) (c t : Q) :
  c * (if sg then - t else t) == if sg then - (c * t) else c * t.
Proof. destruct sg; ring. Qed.








End Binary64Rounding.

(** ** The volume heuristic *)

Section HeuristicFacts.

Lemma mult_fractions (ability : Ability) : mult ability = fractions ability.
Proof. destruct ability; reflexivity. Qed.


End HeuristicFacts.




(** ** Sorting *)

Section SortFacts.

Context {A : Type}.
Variable compareFn : A -> A -> number.

Lemma insert_perm (x : A) (l : list A) :
  Permutation (insert compareFn x l) (x :: l).
Proof.
  induction l as [| y t IH]; simpl.
  - apply Permutation_refl.
  - destruct (compareFn x y > Num 0)%js.
    + apply Permutation_trans with (y :: x :: t).
      * apply perm_skip, IH.
      * apply perm_swap.
    + apply Permutation_refl.
Qed.

Lemma js_sort_perm (l : list A) : Permutation (js_sort compareFn l) l.
Proof.
  induction l as [| x t IH]; simpl.
  - apply perm_nil.
  - apply Permutation_trans with (x :: js_sort compareFn t).
    + apply insert_perm.
    + apply perm_skip, IH.
Qed.

Lemma js_sort_In (l : list A) (x : A) : In x (js_sort compareFn l) <-> In x l.
Proof.
  split; apply Permutation_in.
  - apply js_sort_perm.
  - apply Permutation_sym, js_sort_perm.
Qed.

(** [x] travels past every element it is greater than. *)
Lemma insert_skip (x : A) (l1 l2 : list A) :
  Forall (fun y => (compareFn x y > Num 0)%js = true) l1 ->
  insert compareFn x (l1 ++ l2) = l1 ++ insert compareFn x l2.
Proof.
  induction 1 as [| y t Hy _ IH]; simpl; trivial.
  now rewrite Hy, IH.
Qed.

(** [x] stops in front of the first element it is not greater than. *)
Lemma insert_stop (x : A) (l : list A) :
  match l with
  | y :: _ => (compareFn x y > Num 0)%js = false
  | [] => True
  end ->
  insert compareFn x l = x :: l.
Proof.
  destruct l as [| y t]; simpl; trivial. now intros ->.
Qed.

End SortFacts.

(** Sorting by a finite score, the larger first. *)
Section SortByScore.

Context {A : Type}.
Variable score : A -> number.

Lemma desc_gt (a b : A) :
  is_finite (score a) = true -> is_finite (score b) = true ->
  ((desc score a b > Num 0)%js = true <-> num_lt (score a) (score b)).
Proof.
  unfold desc. destruct (score a) as [p| | |], (score b) as [q| | |];
    try discriminate. intros _ _.
  rewrite gt_spec. simpl. split; intros H; lra.
Qed.

Lemma desc_not_gt (a b : A) :
  is_finite (score a) = true -> is_finite (score b) = true ->
  ((desc score a b > Num 0)%js = false <-> num_le (score b) (score a)).
Proof.
  intros Ha Hb. rewrite <- not_true_iff_false, (desc_gt a b Ha Hb).
  destruct (score a) as [p| | |], (score b) as [q| | |]; try discriminate.
  simpl. split; [apply Qnot_lt_le | apply Qle_not_lt].
Qed.

Lemma num_le_trans (x y z : number) : num_le x y -> num_le y z -> num_le x z.
Proof.
  destruct x, y, z; simpl; try tauto. apply Qle_trans.
Qed.

Lemma num_lt_le (x y : number) : num_lt x y -> num_le x y.
Proof.
  destruct x, y; simpl; try tauto. apply Qlt_le_weak.
Qed.

Lemma finite_scores_insert (x : A) (l : list A) :
  is_finite (score x) = true -> finite_scores score l ->
  finite_scores score (insert (desc score) x l).
Proof.
  intros Hx Hl. unfold finite_scores.
  apply (Permutation_Forall (Permutation_sym (insert_perm (desc score) x l))).
  now constructor.
Qed.

Lemma finite_scores_sort (l : list A) :
  finite_scores score l -> finite_scores score (js_sort (desc score) l).
Proof.
  intros H. unfold finite_scores.
  apply (Permutation_Forall (Permutation_sym (js_sort_perm (desc score) l))), H.
Qed.

(** The result is in descending order. *)
Lemma insert_sorted (x : A) (l : list A) :
  is_finite (score x) = true -> finite_scores score l ->
  StronglySorted (fun a b => num_le (score b) (score a)) l ->
  StronglySorted (fun a b => num_le (score b) (score a)) (insert (desc score) x l).
Proof.
  intros Hx Hl Hs. induction Hs as [| y t Ht IH Hy]; simpl.
  - repeat constructor.
  - inversion_clear Hl as [| ? ? Hfy Hft].
    destruct (desc score x y > Num 0)%js eqn:E.
    + constructor; [now apply IH |].
      apply (Permutation_Forall (Permutation_sym (insert_perm (desc score) x t))).
      constructor; trivial.
      apply num_lt_le, (desc_gt x y Hx Hfy), E.
    + apply (desc_not_gt x y Hx Hfy) in E.
      constructor; [now constructor |].
      constructor; trivial.
      apply Forall_impl with (2 := Hy).
      intros z Hz. now apply num_le_trans with (score y).
Qed.

Lemma js_sort_sorted (l : list A) :
  finite_scores score l ->
  StronglySorted (fun a b => num_le (score b) (score a)) (js_sort (desc score) l).
Proof.
  induction 1 as [| x t Hx Ht IH]; simpl.
  - constructor.
  - apply insert_sorted; trivial. now apply finite_scores_sort.
Qed.

Lemma js_sort_head (l : list A) :
  finite_scores score l -> l <> [] ->
  exists x : A, hd_error (js_sort (desc score) l) = Some x /\ first_largest score l x.
Proof.
  induction 1 as [| a t Ha Ht IH]; [congruence |]. intros _.
  destruct t as [| b t'].
  - exists a. split; [reflexivity |]. exists [], []. repeat split; constructor.
  - destruct IH as [x [Hhd [l1 [l2 [El [H1 H2]]]]]]; [discriminate |].
    assert (Hx : is_finite (score x) = true).
    { unfold finite_scores in Ht. rewrite Forall_forall in Ht. apply Ht.
      rewrite El. apply in_or_app. right. now left. }
    change (js_sort (desc score) (a :: b :: t'))
      with (insert (desc score) a (js_sort (desc score) (b :: t'))).
    destruct (js_sort (desc score) (b :: t')) as [| y s]; [discriminate |].
    injection Hhd as ->. simpl.
    destruct (desc score a x > Num 0)%js eqn:E.
    + exists x. split; [reflexivity |].
      exists (a :: l1), l2. rewrite El. repeat split; trivial.
      constructor; trivial. apply (desc_gt a x Ha Hx), E.
    + apply (desc_not_gt a x Ha Hx) in E.
      exists a. split; [reflexivity |].
      exists [], (b :: t'). repeat split; [constructor |].
      rewrite El. apply Forall_app. split.
      * apply Forall_impl with (2 := H1). intros z Hz.
        apply num_le_trans with (score x); trivial. now apply num_lt_le.
      * constructor; trivial.
        apply Forall_impl with (2 := H2). intros z Hz.
        now apply num_le_trans with (score x).
Qed.

End SortByScore.

(** ** [js_sort] is the stable sort *)

Section SortedUnique.

Context {B : Type}.
Variable R : B -> B -> Prop.
Variable D : B -> Prop.
Hypothesis R_asym : forall x y, D x -> D y -> R x y -> R y x -> False.


End SortedUnique.

Section StableSort.

Context {A : Type}.
Variable compareFn : A -> A -> number.

(** The comparator is consistent on the elements that satisfy [P]: it
    compares them by a rational key. *)
Variable P : A -> Prop.
Variable key : A -> Q.
Hypothesis compare_key :
  forall a b, P a -> P b -> compareFn a b =j= Num (key a - key b).

Lemma gt_key (a b : A) :
  P a -> P b -> ((compareFn a b > Num 0)%js = true <-> key b < key a).
Proof.
  intros Ha Hb. pose proof (compare_key a b Ha Hb) as H. rewrite gt_spec.
  destruct (compareFn a b) as [c| | |]; simpl in *; try contradiction.
  rewrite H. split; intros; lra.
Qed.











End StableSort.

(** ** The ranking pipeline *)

Section PipelineFacts.

Lemma rankCatalog_all (catalog : list Board) (q : UserQuery) :
  all (rankCatalog catalog q) =
  filtered (enriched (Some catalog) (weight q) (wave q) (ability q))
           (wave q) (ability q)
           (fst (heuristicVolume (weight q) (ability q)))
           (snd (heuristicVolume (weight q) (ability q)))
           (sortMode q) (brandFilter q).
Proof.
  unfold rankCatalog.
  destruct (heuristicVolume (weight q) (ability q)). reflexivity.
Qed.

Lemma rankCatalog_top (catalog : list Board) (q : UserQuery) :
  topPerBrand (rankCatalog catalog q) =
  topPicksByShaper (all (rankCatalog catalog q)).
Proof.
  unfold rankCatalog.
  destruct (heuristicVolume (weight q) (ability q)). reflexivity.
Qed.

Lemma filtered_perm (e : list Scored) (wv : WaveType) (ab : Ability)
      (minV maxV : number) (sort : SortMode) (sel : list string) :
  Permutation (filtered e wv ab minV maxV sort sel)
              (filtered_list e wv ab minV maxV sel).
Proof.
  unfold filtered. destruct sort; apply js_sort_perm.
Qed.

Lemma filtered_In (e : list Scored) (wv : WaveType) (ab : Ability)
      (minV maxV : number) (sort : SortMode) (sel : list string)
      (sb : Scored) :
  In sb (filtered e wv ab minV maxV sort sel) <->
  In sb (filtered_list e wv ab minV maxV sel).
Proof.
  split; apply Permutation_in.
  - apply filtered_perm.
  - apply Permutation_sym, filtered_perm.
Qed.

Lemma filtered_list_In (e : list Scored) (wv : WaveType) (ab : Ability)
      (minV maxV : number) (sel : list string) (sb : Scored) :
  In sb (filtered_list e wv ab minV maxV sel) <->
  In sb e
  /\ In (WaveType_value wv) (waveTypes sb)
  /\ In (Ability_value ab) (abilities sb)
  /\ within (minV - Num 6)%js (maxV + Num 6)%js (volume sb)
  /\ (sel = [] \/ In (shaper sb) sel).
Proof.
  unfold filtered_list.
  rewrite <- weight_test_within, <- !includes_In.
  destruct sel as [| s0 sel']; rewrite !filter_In.
  - intuition.
  - intuition discriminate.
Qed.

Lemma enriched_In (catalog : list Board) (w : number) (wv : WaveType)
      (ab : Ability) (sb : Scored) :
  In sb (enriched (Some catalog) w wv ab) <->
  exists b : Board,
    In b catalog /\ sb = {| board := b; _score := scoreBoard b w wv ab |}.
Proof.
  unfold enriched. rewrite in_map_iff. split; intros [b [H1 H2]]; exists b;
    split; auto.
Qed.

Lemma all_In (catalog : list Board) (q : UserQuery) (sb : Scored) :
  In sb (all (rankCatalog catalog q)) <->
  exists b : Board,
    In b catalog
    /\ sb = {| board := b;
              _score := scoreBoard b (weight q) (wave q) (ability q) |}
    /\ In (WaveType_value (wave q)) (waveTypes b)
    /\ In (Ability_value (ability q)) (abilities b)
    /\ within (fst (heuristicVolume (weight q) (ability q)) - Num 6)%js
              (snd (heuristicVolume (weight q) (ability q)) + Num 6)%js
              (volume b)
    /\ (brandFilter q = [] \/ In (shaper b) (brandFilter q)).
Proof.
  rewrite rankCatalog_all.
  rewrite filtered_In, filtered_list_In, enriched_In. split.
  - intros [[b [Hb ->]] H]. exists b. simpl in H. tauto.
  - intros [b [Hb [-> H]]]. simpl. split; [exists b; auto | tauto].
Qed.

End PipelineFacts.

(** C3.  A scored board is in the result [all] if and only if it is the
    scored copy of a board of the catalog whose wave types contain the wave
    of the query, whose abilities contain the ability of the query, whose
    volume lies within [heuristicMin - 6, heuristicMax + 6], and whose
    shaper is in the brand filter unless that filter is empty. *)
Theorem all_membership :
  forall (catalog : list Board) (q : UserQuery) (sb : Scored),
    In sb (all (rankCatalog catalog q)) <->
    exists b : Board,
      In b catalog
      /\ sb = {| board := b;
                _score := scoreBoard b (weight q) (wave q) (ability q) |}
      /\ In (WaveType_value (wave q)) (waveTypes b)
      /\ In (Ability_value (ability q)) (abilities b)
      /\ within (fst (heuristicVolume (weight q) (ability q)) - Num 6)%js
                (snd (heuristicVolume (weight q) (ability q)) + Num 6)%js
                (volume b)
      /\ (brandFilter q = [] \/ In (shaper b) (brandFilter q)).
Proof.
  intros catalog q sb. rewrite rankCatalog_all.
  rewrite filtered_In, filtered_list_In, enriched_In. split.
  - intros [[b [Hb ->]] H]. exists b. simpl in H. tauto.
  - intros [b [Hb [-> H]]]. simpl. split; [exists b; auto | tauto].
Qed.

Section SponsoredFirst.

Lemma by_sponsored_gt (a b : Scored) :
  (by_sponsored a b > Num 0)%js = is_sponsored b && not_sponsored a.
Proof.
  unfold by_sponsored, is_sponsored, not_sponsored.
  destruct (truthy (sponsored a)), (truthy (sponsored b)); reflexivity.
Qed.

Lemma sort_by_sponsored (l : list Scored) :
  js_sort by_sponsored l = filter is_sponsored l ++ filter not_sponsored l.
Proof.
  induction l as [| a t IH]; simpl; trivial. rewrite IH.
  unfold is_sponsored at 2, not_sponsored at 2.
  destruct (truthy (sponsored a)) eqn:Ea; simpl.
  - apply insert_stop.
    destruct (filter is_sponsored t ++ filter not_sponsored t); trivial.
    rewrite by_sponsored_gt. unfold not_sponsored. rewrite Ea.
    apply andb_false_r.
  - rewrite insert_skip.
    + f_equal. apply insert_stop.
      destruct (filter not_sponsored t) as [| y s] eqn:E; trivial.
      assert (Hy : not_sponsored y = true).
      { apply (proj1 (filter_In not_sponsored y t)). rewrite E. now left. }
      rewrite by_sponsored_gt. unfold is_sponsored, not_sponsored in *.
      apply negb_true_iff in Hy. now rewrite Hy.
    + apply Forall_forall. intros y Hy. apply filter_In in Hy.
      rewrite by_sponsored_gt. unfold not_sponsored. rewrite Ea.
      now rewrite (proj2 Hy).
Qed.

End SponsoredFirst.

(** C8.  Under the sort mode that puts sponsored boards first, the result
    is the sponsored boards of the filtered list in their input order,
    followed by the other boards in their input order: every sponsored
    board comes before every board that is not, and the relative order
    inside each of the two groups is the input order. *)
Theorem sponsored_first_stable :
  forall (e : list Scored) (wv : WaveType) (ab : Ability)
         (minV maxV : number) (sel : list string),
    filtered e wv ab minV maxV sort_sponsored sel =
    filter is_sponsored (filtered_list e wv ab minV maxV sel)
    ++ filter not_sponsored (filtered_list e wv ab minV maxV sel).
Proof.
  intros. unfold filtered. apply sort_by_sponsored.
Qed.

(** ** The sorts of the pipeline have one admissible result *)

Section PipelineSorts.




Lemma by_volume_key (t : Q) (a b : Scored) :
  is_finite (volume a) = true -> is_finite (volume b) = true ->
  by_volume (Num t) a b =j=
  Num (Qabs (rational (volume a) - t) - Qabs (rational (volume b) - t)).
Proof.
  unfold by_volume.
  destruct (volume a) as [x| | |], (volume b) as [y| | |]; try discriminate.
  intros _ _. simpl. reflexivity.
Qed.


End PipelineSorts.

(** ** Top picks per brand *)

Section Grouping.

Lemma brand_group_snoc (s : string) (p : list Scored) (b : Scored) :
  brand_group s (p ++ [b]) =
  if String.eqb s (shaper b) then brand_group s p ++ [b] else brand_group s p.
Proof.
  unfold brand_group. rewrite filter_app. simpl.
  destruct (String.eqb s (shaper b)); trivial. apply app_nil_r.
Qed.

Lemma brand_group_nil (s : string) (p : list Scored) :
  (forall b : Scored, In b p -> shaper b <> s) -> brand_group s p = [].
Proof.
  intros H. induction p as [| a t IH]; simpl; trivial.
  destruct (String.eqb_spec s (shaper a)) as [E | _].
  - exfalso. apply (H a); [now left | now symmetry].
  - apply IH. intros b Hb. apply H. now right.
Qed.

Lemma brand_group_In (s : string) (p : list Scored) (b : Scored) :
  In b (brand_group s p) <-> In b p /\ shaper b = s.
Proof.
  unfold brand_group. rewrite filter_In, String.eqb_eq.
  split; intros [H1 H2]; split; auto.
Qed.

Variable g : string -> list Scored.

Lemma map_has_keys (ks : list string) (s : string) :
  map_has (map (fun k => (k, g k)) ks) s = true <-> In s ks.
Proof.
  induction ks as [| k t IH]; simpl.
  - split; [discriminate | tauto].
  - rewrite orb_true_iff, IH, String.eqb_eq. tauto.
Qed.

Lemma map_push_keys (ks : list string) (s : string) (b : Scored) :
  NoDup ks ->
  map_push (map (fun k => (k, g k)) ks) s b =
  map (fun k => (k, if String.eqb k s then g k ++ [b] else g k)) ks.
Proof.
  induction 1 as [| k t Hk Ht IH]; simpl; trivial.
  destruct (String.eqb_spec k s) as [-> | Hne].
  - f_equal. apply map_ext_in. intros k' Hk'.
    destruct (String.eqb_spec k' s) as [-> | _]; [contradiction | trivial].
  - now rewrite IH.
Qed.

End Grouping.

Section TopPickFacts.

(** The map built by the loop holds, for each brand in the order of its
    first board, the boards of that brand in the order of the list. *)
Lemma group_fold (p : list Scored) :
  exists ks : list string,
    NoDup ks
    /\ (forall s, In s ks <-> exists b : Scored, In b p /\ shaper b = s)
    /\ fold_left group_step p [] = map (fun k => (k, brand_group k p)) ks.
Proof.
  induction p as [| b p IH] using rev_ind.
  - exists []. split; [constructor |]. split; [| reflexivity].
    intros s. split; [contradiction | intros [b [[] _]]].
  - destruct IH as [ks [Hnd [Hks Hm]]].
    rewrite fold_left_app. simpl. rewrite Hm. unfold group_step.
    assert (Hsnoc : forall ks',
               map (fun k => (k, if String.eqb k (shaper b)
                                 then brand_group k p ++ [b]
                                 else brand_group k p)) ks' =
               map (fun k => (k, brand_group k (p ++ [b]))) ks').
    { intros ks'. apply map_ext. intros k. now rewrite brand_group_snoc. }
    destruct (map_has _ (shaper b)) eqn:E.
    + apply map_has_keys in E. exists ks. split; trivial. split.
      * intros s. rewrite Hks. split.
        -- intros [b' [H1 H2]]. exists b'. split; trivial.
           apply in_or_app. now left.
        -- intros [b' [H1 H2]]. apply in_app_or in H1.
           destruct H1 as [H1 | [-> | []]]; [now exists b' |].
           apply Hks. now rewrite <- H2.
      * simpl. rewrite map_push_keys; trivial.
    + assert (Hnot : ~ In (shaper b) ks).
      { intros H. apply (map_has_keys (fun k => brand_group k p)) in H.
        congruence. }
      assert (Hnil : brand_group (shaper b) p = []).
      { apply brand_group_nil. intros b' Hb' Heq. apply Hnot, Hks.
        now exists b'. }
      exists (ks ++ [shaper b]). split; [| split].
      * apply NoDup_app; [trivial | repeat constructor; auto |].
        intros s H1 [<- | []]. contradiction.
      * intros s. rewrite in_app_iff, Hks. split.
        -- intros [[b' [H1 H2]] | [<- | []]].
           ++ exists b'. split; trivial. apply in_or_app. now left.
           ++ exists b. split; trivial. apply in_or_app. right. now left.
        -- intros [b' [H1 H2]]. apply in_app_or in H1.
           destruct H1 as [H1 | [-> | []]]; [left; now exists b' |].
           right. now left.
      * simpl.
        replace (map (fun k => (k, brand_group k p)) ks
                 ++ [(shaper b, @nil Scored)])
          with (map (fun k => (k, brand_group k p)) (ks ++ [shaper b]))
          by (rewrite map_app; simpl; now rewrite Hnil).
        rewrite map_push_keys; trivial.
        apply NoDup_app; [trivial | repeat constructor; auto |].
        intros s H1 [<- | []]. contradiction.
Qed.

Lemma finite_scores_group (s : string) (p : list Scored) :
  finite_scores _score p -> finite_scores _score (brand_group s p).
Proof.
  unfold finite_scores, brand_group. rewrite !Forall_forall.
  intros H x Hx. apply filter_In in Hx. now apply H.
Qed.

(** Every group yields its pick: no entry is [undefined]. *)
Lemma tops_of_groups (p : list Scored) (ks : list string) :
  finite_scores _score p ->
  (forall k, In k ks -> brand_group k p <> []) ->
  exists tops : list Top.t,
    tops_of (map (fun k => (k, brand_group k p)) ks) = Some tops
    /\ map Top.shaper tops = ks
    /\ Forall (fun t => first_largest _score (brand_group (Top.shaper t) p)
                                      (Top.board t)) tops.
Proof.
  intros Hfin. induction ks as [| k t IH]; intros Hne.
  - exists []. repeat split. constructor.
  - destruct IH as [tops [Ht [Hk Hf]]].
    { intros k' Hk'. apply Hne. now right. }
    destruct (js_sort_head _score (brand_group k p)
                (finite_scores_group k p Hfin)) as [x [Hx Hfl]].
    { apply Hne. now left. }
    exists ({| Top.shaper := k; Top.board := x |} :: tops).
    simpl. change by_score with (desc _score). rewrite Hx, Ht.
    split; [reflexivity |]. split; [now rewrite Hk |].
    constructor; trivial.
Qed.

Lemma topPicksByShaper_spec (f : list Scored) :
  finite_scores _score f ->
  exists tops : list Top.t,
    topPicksByShaper f = Some tops
    /\ NoDup (map Top.shaper tops)
    /\ (forall t, In t tops ->
                  first_largest _score (brand_group (Top.shaper t) f)
                                (Top.board t))
    /\ (forall sb : Scored, In sb f ->
                            exists t, In t tops /\ Top.shaper t = shaper sb)
    /\ StronglySorted (fun a b => num_le (top_score b) (top_score a)) tops.
Proof.
  intros Hfin. unfold topPicksByShaper.
  destruct (group_fold f) as [ks [Hnd [Hks ->]]].
  destruct (tops_of_groups f ks Hfin) as [tops [-> [Hk Hf]]].
  { intros k Hk. apply Hks in Hk. destruct Hk as [b [H1 H2]].
    intros E. assert (Hb : In b (brand_group k f))
      by (apply brand_group_In; auto).
    rewrite E in Hb. contradiction. }
  rewrite Forall_forall in Hf.
  assert (Hperm := js_sort_perm by_top_score tops).
  assert (Htf : finite_scores top_score tops).
  { apply Forall_forall. intros t Ht. destruct (Hf t Ht) as [l1 [l2 [E _]]].
    unfold finite_scores in Hfin. rewrite Forall_forall in Hfin.
    apply Hfin. apply (brand_group_In (Top.shaper t)).
    rewrite E. apply in_or_app. right. now left. }
  exists (js_sort by_top_score tops). simpl. split; [reflexivity |].
  split; [| split; [| split]].
  - apply (Permutation_NoDup (l := map Top.shaper tops)).
    + apply Permutation_map, Permutation_sym, Hperm.
    + now rewrite Hk.
  - intros t Ht. apply Hf. apply (Permutation_in _ Hperm), Ht.
  - intros sb Hsb.
    assert (Hin : In (shaper sb) (map Top.shaper tops)).
    { rewrite Hk. apply Hks. now exists sb. }
    apply in_map_iff in Hin. destruct Hin as [t [H1 H2]].
    exists t. split; trivial.
    apply (Permutation_in _ (Permutation_sym Hperm)), H2.
  - change by_top_score with (desc top_score).
    now apply js_sort_sorted.
Qed.

End TopPickFacts.

Section RankedScores.

Lemma heuristicVolume_NaN (ability : Ability) :
  heuristicVolume NaN ability = (NaN, NaN).
Proof. destruct ability; reflexivity. Qed.

(** Every board that passes the volume window has a finite score, as soon
    as the weight is finite or the volumes of the catalog are. *)
Lemma all_finite_scores (catalog : list Board) (q : UserQuery) :
  Forall (fun b => is_finite (volume b) = true) catalog
  \/ is_finite (weight q) = true ->
  finite_scores _score (all (rankCatalog catalog q)).
Proof.
  intros H. apply Forall_forall. intros sb Hsb.
  apply all_In in Hsb.
  destruct Hsb as [b [Hb [-> [_ [_ [[Hlo Hhi] _]]]]]]. simpl.
  assert (Hv : is_finite (volume b) = true /\ is_nan (weight q) = false).
  { destruct H as [H | H].
    - rewrite Forall_forall in H. split; [now apply H |].
      destruct (weight q); trivial.
      rewrite heuristicVolume_NaN in Hlo. contradiction.
    - destruct (weight q) as [w| | |]; try discriminate.
      rewrite heuristicVolume_finite in Hlo, Hhi.
      destruct (volume b); simpl in Hlo, Hhi; try contradiction.
      split; reflexivity. }
  destruct Hv as [Hv Hw].
  destruct (scoreBoard_range b (weight q) (wave q) (ability q) Hv Hw) as [s [-> _]].
  reflexivity.
Qed.

End RankedScores.

(** C4.  The result [topPerBrand] is produced (no pick is missing), it
    never holds two entries of the same brand, the board chosen for a brand
    is the first of the boards of that brand in [all] whose score is the
    largest, every brand present in [all] has its entry, and the entries are
    in descending order of the score of the chosen board, whatever the sort
    mode of the query. *)
Theorem topPerBrand_best_per_brand :
  forall (catalog : list Board) (q : UserQuery),
    Forall (fun b => is_finite (volume b) = true) catalog
    \/ is_finite (weight q) = true ->
    exists tops : list Top.t,
      topPerBrand (rankCatalog catalog q) = Some tops
      /\ NoDup (map Top.shaper tops)
      /\ (forall t, In t tops ->
            first_largest _score
              (brand_group (Top.shaper t) (all (rankCatalog catalog q)))
              (Top.board t))
      /\ (forall sb : Scored, In sb (all (rankCatalog catalog q)) ->
            exists t, In t tops /\ Top.shaper t = shaper sb)
      /\ StronglySorted (fun a b => num_le (top_score b) (top_score a)) tops.
Proof.
  intros catalog q H. rewrite rankCatalog_top.
  apply topPicksByShaper_spec, all_finite_scores, H.
Qed.

Lemma topPerBrand_best_per_brand_witness :
  (Forall (fun b => is_finite (volume b) = true) FALLBACK_BOARDS
   \/ is_finite (Num 80) = true)
  /\ exists tops : list Top.t,
      topPerBrand (rankCatalog FALLBACK_BOARDS sample_query) = Some tops
      /\ NoDup (map Top.shaper tops)
      /\ (forall t, In t tops ->
            first_largest _score
              (brand_group (Top.shaper t)
                           (all (rankCatalog FALLBACK_BOARDS sample_query)))
              (Top.board t))
      /\ (forall sb : Scored,
            In sb (all (rankCatalog FALLBACK_BOARDS sample_query)) ->
            exists t, In t tops /\ Top.shaper t = shaper sb)
      /\ StronglySorted (fun a b => num_le (top_score b) (top_score a)) tops.
Proof.
  assert (H : Forall (fun b => is_finite (volume b) = true) FALLBACK_BOARDS
              \/ is_finite (Num 80) = true) by (right; reflexivity).
  split; [exact H |].
  exact (topPerBrand_best_per_brand FALLBACK_BOARDS sample_query H).
Defined.

(** ** CSV ingestion *)

Section CsvFacts.

Lemma safeParseCSVRow_length (line : string) (n : nat) (cols : list string) :
  safeParseCSVRow line n = Some cols -> (n <= List.length cols)%nat.
Proof.
  unfold safeParseCSVRow.
  destruct (Nat.leb_spec n (List.length
     (out (scan_line line {| out := []; cur := ""; inQ := false |})
      ++ [cur (scan_line line {| out := []; cur := ""; inQ := false |})])));
    [| discriminate].
  intros E. injection E as <-. assumption.
Qed.

Lemma indexOf_None (headers : list string) (k : string) :
  indexOf headers k = None <-> ~ In k headers.
Proof.
  induction headers as [| h t IH]; simpl.
  - tauto.
  - destruct (String.eqb_spec h k) as [-> | Hne].
    + split; [discriminate | tauto].
    + destruct (indexOf t k); simpl.
      * split; [discriminate |]. intros H. exfalso.
        destruct (in_dec string_dec k t) as [Hin | Hin].
        -- apply H. now right.
        -- apply IH in Hin. discriminate.
      * split; [| reflexivity]. intros _ [H | H]; [contradiction |].
        now apply IH.
Qed.

Lemma indexOf_bound (headers : list string) (k : string) (i : nat) :
  indexOf headers k = Some i -> (i < List.length headers)%nat.
Proof.
  revert i. induction headers as [| h t IH]; simpl; [discriminate |].
  intros i. destruct (String.eqb h k).
  - intros E. injection E as <-. lia.
  - destruct (indexOf t k) as [j |]; simpl; [| discriminate].
    intros E. injection E as <-. specialize (IH j eq_refl). lia.
Qed.

(** In a row that is kept, the cell of a column is [undefined] exactly when
    the header has no such column. *)
Lemma col_None (headers cols : list string) (k : string) :
  (List.length headers <= List.length cols)%nat ->
  (col headers cols k = None <-> ~ In k headers).
Proof.
  intros Hlen. unfold col. destruct (indexOf headers k) as [i |] eqn:E.
  - split.
    + intros H. apply nth_error_None in H. apply indexOf_bound in E. lia.
    + intros H. apply indexOf_None in H. congruence.
  - split; [| reflexivity]. intros _. now apply indexOf_None.
Qed.

Lemma rows_loop_In (headers rows : list string) (i : nat) (acc : list Board)
      (b : Board) :
  In b (rows_loop headers rows i acc) ->
  In b acc
  \/ exists (row : string) (cols : list string) (j : nat),
      In row rows
      /\ safeParseCSVRow row (List.length headers) = Some cols
      /\ b = row_board headers cols j.
Proof.
  revert i acc. induction rows as [| r rest IH]; simpl; intros i acc H.
  - now left.
  - destruct (safeParseCSVRow r (List.length headers)) as [cols |] eqn:E.
    + apply IH in H. destruct H as [H | [row [cols' [j [H1 H2]]]]].
      * apply in_app_or in H. destruct H as [H | [<- | []]]; [now left |].
        right. exists r, cols, i. auto.
      * right. exists row, cols', j. tauto.
    + apply IH in H. destruct H as [H | [row [cols' [j [H1 H2]]]]].
      * now left.
      * right. exists row, cols', j. tauto.
Qed.

(** Every board of the result is the object built from a kept row. *)
Lemma parseAirtableCSV_In (csv : string) (b : Board) :
  In b (parseAirtableCSV csv) ->
  exists (headers cols : list string) (i : nat),
    kept_row csv headers cols /\ b = row_board headers cols i.
Proof.
  unfold parseAirtableCSV, kept_row.
  destruct (filter nonEmpty (split_lines csv)) as [| header data];
    [contradiction |].
  intros H. apply rows_loop_In in H.
  destruct H as [[] | [row [cols [j [H1 [H2 H3]]]]]].
  exists (map trim (split "," header)), cols, j.
  split; trivial. exists header, data, row. auto.
Qed.

Lemma Number_or_0_cell (cell : option string) :
  Number_or_0 cell = numeric_cell cell.
Proof.
  destruct cell as [[| c s] |]; reflexivity.
Qed.

Lemma or_else_lower (cell : option string) :
  In (toLowerCase (or_else cell "")) sponsored_words <->
  exists s : string, cell = Some s /\ In (toLowerCase s) sponsored_words.
Proof.
  destruct cell as [[| c s] |]; simpl.
  - split.
    + intros [H | [H | [H | [H | []]]]]; discriminate.
    + intros [s [E H]]. injection E as <-. exact H.
  - split.
    + intros H. eexists. split; [reflexivity | exact H].
    + intros [s' [E H]]. injection E as <-. exact H.
  - split.
    + intros [H | [H | [H | [H | []]]]]; discriminate.
    + intros [s [E _]]. discriminate.
Qed.

End CsvFacts.

(** C5, the claim as it is written, fails on a cell that holds text: the
    volume read from the cell [abc] is NaN, not [0]. *)
Lemma text_volume_is_NaN :
  map volume (parseAirtableCSV csv_text_volume) = [NaN]
  /\ ~ (NaN =j= Num 0).
Proof.
  split; [reflexivity |]. simpl. tauto.
Qed.

(** C5, amended.  For every row that is not dropped, each of the numeric
    fields [recommendedWeightMin], [recommendedWeightMax] and [volume] is
    [0] when its column is missing from the header or its cell is empty,
    and is the conversion [Number] of the text of the cell otherwise; that
    conversion is NaN for a text that is not a numeric literal, such as
    [abc]. *)
Theorem csv_numeric_fields :
  forall (csv : string) (b : Board),
    In b (parseAirtableCSV csv) ->
    exists headers cols : list string,
      kept_row csv headers cols
      /\ fst (recommendedWeight b)
         = numeric_cell (col headers cols "recommendedWeightMin")
      /\ snd (recommendedWeight b)
         = numeric_cell (col headers cols "recommendedWeightMax")
      /\ volume b = numeric_cell (col headers cols "volume")
      /\ (forall k : string, col headers cols k = None <-> ~ In k headers)
      /\ numeric_cell (Some "abc"%string) = NaN.
Proof.
  intros csv b H. apply parseAirtableCSV_In in H.
  destruct H as [headers [cols [i [Hrow ->]]]].
  exists headers, cols. split; [exact Hrow |].
  unfold row_board; cbn [recommendedWeight volume fst snd].
  rewrite !Number_or_0_cell. repeat (split; [reflexivity |]).
  split; [| reflexivity].
  intros k. apply col_None.
  destruct Hrow as [header [data [row [_ [_ [_ Hcols]]]]]].
  now apply safeParseCSVRow_length with (line := row).
Qed.

Lemma csv_numeric_fields_witness :
  In (row_board ["volume"%string] ["abc"%string] 1)
     (parseAirtableCSV csv_text_volume)
  /\ exists headers cols : list string,
      kept_row csv_text_volume headers cols
      /\ fst (recommendedWeight (row_board ["volume"%string] ["abc"%string] 1))
         = numeric_cell (col headers cols "recommendedWeightMin")
      /\ snd (recommendedWeight (row_board ["volume"%string] ["abc"%string] 1))
         = numeric_cell (col headers cols "recommendedWeightMax")
      /\ volume (row_board ["volume"%string] ["abc"%string] 1)
         = numeric_cell (col headers cols "volume")
      /\ (forall k : string, col headers cols k = None <-> ~ In k headers)
      /\ numeric_cell (Some "abc"%string) = NaN.
Proof.
  assert (H : In (row_board ["volume"%string] ["abc"%string] 1)
                 (parseAirtableCSV csv_text_volume)) by (left; reflexivity).
  split; [exact H |].
  exact (csv_numeric_fields csv_text_volume _ H).
Defined.

(** C7, the claim as it is written, fails on a cell with a space around the
    word: the cell [ true] trimmed and lower-cased is [true], and the board
    is not sponsored. *)
Lemma spaced_sponsored_is_false :
  map sponsored (parseAirtableCSV csv_spaced_sponsored) = [Some false]
  /\ In (toLowerCase (trim " true")) sponsored_words.
Proof.
  split; [reflexivity |]. right. left. reflexivity.
Qed.

(** C7, amended.  For every row that is not dropped, [sponsored] is true if
    and only if the cell of the column [sponsored], lower-cased and not
    trimmed, is one of [1], [true], [yes], [y]; a missing or an empty cell
    gives false. *)
Theorem csv_sponsored_field :
  forall (csv : string) (b : Board),
    In b (parseAirtableCSV csv) ->
    exists headers cols : list string,
      kept_row csv headers cols
      /\ (sponsored b = Some true \/ sponsored b = Some false)
      /\ (sponsored b = Some true <->
          exists s : string,
            col headers cols "sponsored" = Some s
            /\ In (toLowerCase s) sponsored_words).
Proof.
  intros csv b H. apply parseAirtableCSV_In in H.
  destruct H as [headers [cols [i [Hrow ->]]]].
  exists headers, cols. split; [exact Hrow |].
  unfold row_board; cbn [sponsored].
  rewrite <- or_else_lower.
  change sponsored_words with ["1"; "true"; "yes"; "y"]%string.
  rewrite <- includes_In.
  destruct (includes _ _); split; auto; split; congruence.
Qed.

Lemma csv_sponsored_field_witness :
  In (row_board ["sponsored"%string] [" true"%string] 1)
     (parseAirtableCSV csv_spaced_sponsored)
  /\ exists headers cols : list string,
      kept_row csv_spaced_sponsored headers cols
      /\ (sponsored (row_board ["sponsored"%string] [" true"%string] 1)
          = Some true
          \/ sponsored (row_board ["sponsored"%string] [" true"%string] 1)
             = Some false)
      /\ (sponsored (row_board ["sponsored"%string] [" true"%string] 1)
          = Some true <->
          exists s : string,
            col headers cols "sponsored" = Some s
            /\ In (toLowerCase s) sponsored_words).
Proof.
  assert (H : In (row_board ["sponsored"%string] [" true"%string] 1)
                 (parseAirtableCSV csv_spaced_sponsored))
    by (left; reflexivity).
  split; [exact H |].
  exact (csv_sponsored_field csv_spaced_sponsored _ H).
Defined.

(** ** The catalog loader *)

Section LoaderFacts.

Variable json : string -> Thrown + list Board.

Lemma loadCatalog_failed (src : DataSource) (r : FetchOutcome) (e : Thrown) :
  fetch_data json src r = inl e ->
  loadCatalog json src r = (Some FALLBACK_BOARDS, Some (warning src)).
Proof.
  intros H. unfold loadCatalog, load. rewrite H. reflexivity.
Qed.

Lemma loadCatalog_loaded (src : DataSource) (r : FetchOutcome)
      (data : list Board) :
  fetch_data json src r = inr data ->
  loadCatalog json src r = (Some data, None).
Proof.
  intros H. unfold loadCatalog, load. rewrite H. reflexivity.
Qed.

Lemma fetch_data_transport (src : DataSource) (r : FetchOutcome) :
  (exists msg, r = Rejected msg)
  \/ (exists status body, r = Response false status body) ->
  exists e : Thrown, fetch_data json src r = inl e.
Proof.
  intros [[msg ->] | [status [body ->]]]; destruct src; simpl; eauto.
Qed.

End LoaderFacts.

(** C6, the claim as it is written, fails: when the fetch succeeds and the
    CSV body is empty, the loader leaves the empty catalog and no warning,
    not the fallback boards. *)
Lemma empty_csv_is_not_a_failure :
  loadCatalog json_rejects airtable (Response true 200 "") = (Some [], None)
  /\ loadCatalog json_rejects airtable (Response true 200 "")
     <> (Some FALLBACK_BOARDS, Some (warning airtable)).
Proof.
  split; [reflexivity | discriminate].
Qed.

(** C6, amended.  When the fetch succeeds, a CSV body is never a decode
    failure: the loader returns the boards parsed from it with no warning,
    which for the empty body is the empty catalog.  On a transport failure
    (a rejected fetch or a status that is not a success) the loader returns
    the three fallback boards with the warning that names the source kind.
    The loader always returns a catalog: with no warning, or the fallback
    boards with the warning. *)
Theorem loader_recovery :
  forall (json : string -> Thrown + list Board),
    (forall (status : nat) (body : string),
        loadCatalog json airtable (Response true status body)
        = (Some (parseAirtableCSV body), None))
    /\ parseAirtableCSV "" = []
    /\ (forall (src : DataSource) (msg : string),
           loadCatalog json src (Rejected msg)
           = (Some FALLBACK_BOARDS, Some (warning src)))
    /\ (forall (src : DataSource) (status : nat) (body : string),
           loadCatalog json src (Response false status body)
           = (Some FALLBACK_BOARDS, Some (warning src)))
    /\ List.length FALLBACK_BOARDS = 3%nat
    /\ (forall (src : DataSource) (r : FetchOutcome),
           exists catalog : list Board,
             loadCatalog json src r = (Some catalog, None)
             \/ loadCatalog json src r
                = (Some FALLBACK_BOARDS, Some (warning src))).
Proof.
  intros json. split; [| split; [| split; [| split; [| split]]]].
  - intros status body. now apply loadCatalog_loaded.
  - reflexivity.
  - intros src msg.
    destruct (fetch_data_transport json src (Rejected msg)) as [e He];
      [left; eauto |].
    now apply loadCatalog_failed with (e := e).
  - intros src status body.
    destruct (fetch_data_transport json src (Response false status body))
      as [e He]; [right; eauto |].
    now apply loadCatalog_failed with (e := e).
  - reflexivity.
  - intros src r. destruct (fetch_data json src r) as [e | data] eqn:E.
    + exists FALLBACK_BOARDS. right. now apply loadCatalog_failed with (e := e).
    + exists data. left. now apply loadCatalog_loaded.
Qed.

(** ** Determinism *)



(* ================================================================= *)
(** * Further properties *)

(** ** The heuristic range and the score *)

Section HeuristicOrder.

Lemma tenth_le (x y : Q) :
  x <= y ->
  inject_Z (Qfloor (x * 10 + (1 # 2))) / 10
  <= inject_Z (Qfloor (y * 10 + (1 # 2))) / 10.
Proof.
  intros H. apply Qmult_le_compat_r; [| discriminate].
  rewrite <- Zle_Qle. apply Qfloor_resp_le. lra.
Qed.

Lemma fractions_ordered (ability : Ability) :
  0 < fst (mult ability) /\ fst (mult ability) <= snd (mult ability).
Proof. destruct ability; split; simpl; lra. Qed.

Lemma fractions_by_ability :
  fst (mult advanced) <= fst (mult intermediate)
  /\ fst (mult intermediate) <= fst (mult beginner)
  /\ snd (mult advanced) <= snd (mult intermediate)
  /\ snd (mult intermediate) <= snd (mult beginner).
Proof. simpl. repeat split; lra. Qed.

Lemma targetVolume_value (w : Q) (ability : Ability) :
  targetVolume (Num w) ability
  = Num ((inject_Z (Qfloor (w * fst (mult ability) * 10 + (1 # 2))) / 10
          + inject_Z (Qfloor (w * snd (mult ability) * 10 + (1 # 2))) / 10)
         / 2).
Proof.
  unfold targetVolume. rewrite heuristicVolume_finite. reflexivity.
Qed.

End HeuristicOrder.

(** X1.  For a weight that is not negative the heuristic range is well
    formed: its lower bound is at most its upper bound, and the target
    volume lies between the two. *)
Theorem heuristic_range_ordered :
  forall (w : Q) (ability : Ability),
    0 <= w ->
    exists lo hi t : Q,
      heuristicVolume (Num w) ability = (Num lo, Num hi)
      /\ targetVolume (Num w) ability = Num t
      /\ lo <= t /\ t <= hi.
Proof.
  intros w ability Hw.
  destruct (fractions_ordered ability) as [Ha Hab].
  assert (Hle : w * fst (mult ability) <= w * snd (mult ability)).
  { rewrite (Qmult_comm w (fst _)), (Qmult_comm w (snd _)).
    apply Qmult_le_compat_r; assumption. }
  apply tenth_le in Hle.
  do 3 eexists. rewrite heuristicVolume_finite, targetVolume_value.
  split; [reflexivity |]. split; [reflexivity |].
  set (lo := inject_Z (Qfloor (w * fst (mult ability) * 10 + (1 # 2))) / 10) in *.
  set (hi := inject_Z (Qfloor (w * snd (mult ability) * 10 + (1 # 2))) / 10) in *.
  split.
  - apply Qle_shift_div_l; lra.
  - apply Qle_shift_div_r; lra.
Qed.

Lemma heuristic_range_ordered_witness :
  0 <= 80
  /\ exists lo hi t : Q,
      heuristicVolume (Num 80) intermediate = (Num lo, Num hi)
      /\ targetVolume (Num 80) intermediate = Num t
      /\ lo <= t /\ t <= hi.
Proof.
  assert (H : 0 <= 80) by discriminate.
  split; [exact H |]. exact (heuristic_range_ordered 80 intermediate H).
Defined.

(** X2.  The heuristic range grows with the weight: of two weights, the
    heavier one has the larger (or the same) lower bound and the larger (or
    the same) upper bound, for every ability. *)
Theorem heuristic_monotone_in_weight :
  forall (w1 w2 : Q) (ability : Ability),
    w1 <= w2 ->
    exists lo1 hi1 lo2 hi2 : Q,
      heuristicVolume (Num w1) ability = (Num lo1, Num hi1)
      /\ heuristicVolume (Num w2) ability = (Num lo2, Num hi2)
      /\ lo1 <= lo2 /\ hi1 <= hi2.
Proof.
  intros w1 w2 ability H.
  assert (Ha : 0 <= fst (mult ability) /\ 0 <= snd (mult ability)).
  { destruct (fractions_ordered ability). split; lra. }
  do 4 eexists. rewrite !heuristicVolume_finite.
  split; [reflexivity |]. split; [reflexivity |].
  split; apply tenth_le; apply Qmult_le_compat_r; tauto.
Qed.

Lemma heuristic_monotone_in_weight_witness :
  70 <= 80
  /\ exists lo1 hi1 lo2 hi2 : Q,
      heuristicVolume (Num 70) beginner = (Num lo1, Num hi1)
      /\ heuristicVolume (Num 80) beginner = (Num lo2, Num hi2)
      /\ lo1 <= lo2 /\ hi1 <= hi2.
Proof.
  assert (H : 70 <= 80) by discriminate.
  split; [exact H |]. exact (heuristic_monotone_in_weight 70 80 beginner H).
Defined.

(** X3.  For a weight that is not negative, a more skilled rider never
    gets a larger range: the bounds for an advanced rider are at most those
    for an intermediate rider, which are at most those for a beginner. *)
Theorem heuristic_ordered_by_ability :
  forall w : Q,
    0 <= w ->
    exists la ha li hi lb hb : Q,
      heuristicVolume (Num w) advanced = (Num la, Num ha)
      /\ heuristicVolume (Num w) intermediate = (Num li, Num hi)
      /\ heuristicVolume (Num w) beginner = (Num lb, Num hb)
      /\ la <= li /\ li <= lb /\ ha <= hi /\ hi <= hb.
Proof.
  intros w Hw. do 6 eexists. rewrite !heuristicVolume_finite.
  do 3 (split; [reflexivity |]).
  destruct fractions_by_ability as [H1 [H2 [H3 H4]]].
  repeat split; apply tenth_le;
    rewrite (Qmult_comm w), (Qmult_comm w);
    apply Qmult_le_compat_r; assumption.
Qed.

Lemma heuristic_ordered_by_ability_witness :
  0 <= 80
  /\ exists la ha li hi lb hb : Q,
      heuristicVolume (Num 80) advanced = (Num la, Num ha)
      /\ heuristicVolume (Num 80) intermediate = (Num li, Num hi)
      /\ heuristicVolume (Num 80) beginner = (Num lb, Num hb)
      /\ la <= li /\ li <= lb /\ ha <= hi /\ hi <= hb.
Proof.
  assert (H : 0 <= 80) by discriminate.
  split; [exact H |]. exact (heuristic_ordered_by_ability 80 H).
Defined.

Section ScoreOrder.

Lemma capped_finite (d : Q) :
  exists m : Q,
    Math_min (Num d) (Num 40) = Num m
    /\ (d <= 40 -> m = d) /\ (40 <= d -> m == 40) /\ m <= 40 /\ m <= d.
Proof.
  cbn [Math_min le]. destruct (Qle_bool d 40) eqn:E.
  - apply Qle_bool_iff in E. exists d. repeat split; trivial; lra.
  - assert (H : ~ d <= 40).
    { intros H. apply Qle_bool_iff in H. congruence. }
    exists 40. repeat split; try lra; intros H'; contradiction.
Qed.

End ScoreOrder.

(** X4.  Of two boards that differ in volume only, the one whose volume is
    closer to the target never scores lower. *)
Theorem closer_volume_scores_higher :
  forall (b1 b2 : Board) (w : Q) (wave : WaveType) (ability : Ability),
    same_but_volume b1 b2 ->
    is_finite (volume b1) = true ->
    is_finite (volume b2) = true ->
    num_le (volume_distance (targetVolume (Num w) ability) b1)
           (volume_distance (targetVolume (Num w) ability) b2) ->
    num_le (scoreBoard b2 (Num w) wave ability)
           (scoreBoard b1 (Num w) wave ability).
Proof.
  intros b1 b2 w wave ability [Hwt [Hab [Hrw Hsp]]] Hv1 Hv2 Hd.
  rewrite !scoreBoard_unfold. cbv zeta. rewrite <- Hwt, <- Hab, <- Hrw, <- Hsp.
  unfold volume_distance in Hd.
  destruct (targetVolume_finite w ability) as [t Ht]. rewrite Ht in *.
  destruct (volume b1) as [v1| | |]; try discriminate.
  destruct (volume b2) as [v2| | |]; try discriminate.
  cbn [sub add neg Math_abs num_le] in Hd |- *.
  destruct (capped_finite (Qabs (v1 + - t))) as [m1 [-> [E1 [F1 [G1 K1]]]]].
  destruct (capped_finite (Qabs (v2 + - t))) as [m2 [-> [E2 [F2 [G2 K2]]]]].
  assert (Hm : m1 <= m2).
  { destruct (Qlt_le_dec 40 (Qabs (v2 + - t))) as [H | H].
    - rewrite (F2 (Qlt_le_weak _ _ H)). exact G1.
    - rewrite (E2 H). lra. }
  destruct (includes (waveTypes b1) _), (includes (abilities b1) _),
    ((Num w >= _)%js && _), (truthy _); cbn [mul sub add neg num_le]; lra.
Qed.

Lemma closer_volume_scores_higher_witness :
  same_but_volume (happy_everyday 33) (happy_everyday 30.3)
  /\ is_finite (volume (happy_everyday 33)) = true
  /\ is_finite (volume (happy_everyday 30.3)) = true
  /\ num_le (volume_distance (targetVolume (Num 80) intermediate)
                             (happy_everyday 33))
            (volume_distance (targetVolume (Num 80) intermediate)
                             (happy_everyday 30.3))
  /\ num_le (scoreBoard (happy_everyday 30.3) (Num 80) mellow_point
                        intermediate)
            (scoreBoard (happy_everyday 33) (Num 80) mellow_point
                        intermediate).
Proof.
  assert (H1 : same_but_volume (happy_everyday 33) (happy_everyday 30.3))
    by (repeat split).
  assert (H2 : is_finite (volume (happy_everyday 33)) = true) by reflexivity.
  assert (H3 : is_finite (volume (happy_everyday 30.3)) = true)
    by reflexivity.
  assert (H4 : num_le (volume_distance (targetVolume (Num 80) intermediate)
                                       (happy_everyday 33))
                      (volume_distance (targetVolume (Num 80) intermediate)
                                       (happy_everyday 30.3)))
    by (vm_compute; discriminate).
  repeat (split; [assumption |]).
  exact (closer_volume_scores_higher (happy_everyday 33) (happy_everyday 30.3)
           80 mellow_point intermediate H1 H2 H3 H4).
Defined.

(** X5.  Every board listed in [all] matches the wave and the ability of
    the query, so its score is at least 52 and at most 127, and the score
    its card shows is a whole number between 52 and 127. *)
Theorem listed_scores_range :
  forall (catalog : list Board) (q : UserQuery) (sb : Scored),
    Forall (fun b => is_finite (volume b) = true) catalog
    \/ is_finite (weight q) = true ->
    In sb (all (rankCatalog catalog q)) ->
    exists (s : Q) (k : Z),
      _score sb = Num s /\ 52 <= s <= 127
      /\ shown_score sb = Num (inject_Z k) /\ (52 <= k <= 127)%Z.
Proof.
  intros catalog q sb H Hin.
  apply all_In in Hin.
  destruct Hin as [b [Hb [-> [Hwave [Habil [[Hlo Hhi] _]]]]]].
  assert (Hv : is_finite (volume b) = true /\ is_nan (weight q) = false).
  { destruct H as [H | H].
    - rewrite Forall_forall in H. split; [now apply H |].
      destruct (weight q); trivial.
      rewrite heuristicVolume_NaN in Hlo. contradiction.
    - destruct (weight q) as [w| | |]; try discriminate.
      rewrite heuristicVolume_finite in Hlo, Hhi.
      destruct (volume b); simpl in Hlo, Hhi; try contradiction.
      split; reflexivity. }
  destruct Hv as [Hv Hw]. unfold shown_score. cbn [_score].
  rewrite scoreBoard_unfold. cbv zeta.
  rewrite (proj2 (includes_In _ _) Hwave), (proj2 (includes_In _ _) Habil).
  destruct (volume b) as [v| | |]; try discriminate.
  destruct (capped_distance v (weight q) (ability q) Hw)
    as [m [-> [Hm0 Hm40]]].
  assert (Hround : forall s : Q,
             52 <= s <= 127 ->
             exists k : Z,
               Math_round (Num s) = Num (inject_Z k) /\ (52 <= k <= 127)%Z).
  { intros s [Hs1 Hs2]. exists (Qfloor (s + (1 # 2))).
    split; [reflexivity |]. split.
    - change 52%Z with (Qfloor 52). apply Qfloor_resp_le. lra.
    - change 127%Z with (Qfloor (255 # 2)). apply Qfloor_resp_le. lra. }
  destruct ((weight q >= _)%js && _), (truthy _); cbn [sub add neg mul];
    match goal with
    | |- exists s k, Num ?x = Num s /\ _ =>
        assert (Hx : 52 <= x <= 127) by lra;
        destruct (Hround x Hx) as [k [Hk1 Hk2]];
        exists x, k; repeat split; trivial; try lra; lia
    end.
Qed.

Lemma listed_scores_range_witness :
  (Forall (fun b => is_finite (volume b) = true) [happy_everyday 30.3]
   \/ is_finite (weight sample_query) = true)
  /\ In {| board := happy_everyday 30.3;
           _score := scoreBoard (happy_everyday 30.3) (Num 80) mellow_point
                                intermediate |}
        (all (rankCatalog [happy_everyday 30.3] sample_query))
  /\ exists (s : Q) (k : Z),
      _score {| board := happy_everyday 30.3;
                _score := scoreBoard (happy_everyday 30.3) (Num 80)
                                     mellow_point intermediate |} = Num s
      /\ 52 <= s <= 127
      /\ shown_score {| board := happy_everyday 30.3;
                        _score := scoreBoard (happy_everyday 30.3) (Num 80)
                                             mellow_point intermediate |}
         = Num (inject_Z k)
      /\ (52 <= k <= 127)%Z.
Proof.
  assert (H1 : Forall (fun b => is_finite (volume b) = true)
                      [happy_everyday 30.3]
               \/ is_finite (weight sample_query) = true)
    by (right; reflexivity).
  assert (H2 : In {| board := happy_everyday 30.3;
                     _score := scoreBoard (happy_everyday 30.3) (Num 80)
                                          mellow_point intermediate |}
                  (all (rankCatalog [happy_everyday 30.3] sample_query)))
    by (left; reflexivity).
  split; [exact H1 |]. split; [exact H2 |].
  exact (listed_scores_range [happy_everyday 30.3] sample_query _ H1 H2).
Defined.

(** ** The sort modes *)

Section KeySorted.

Context {A : Type}.
Variable compareFn : A -> A -> number.
Variable P : A -> Prop.
Variable key : A -> Q.
Hypothesis compare_key :
  forall a b, P a -> P b -> compareFn a b =j= Num (key a - key b).

Lemma insert_key_sorted (x : A) (l : list A) :
  P x -> Forall P l ->
  StronglySorted (fun a b => key a <= key b) l ->
  StronglySorted (fun a b => key a <= key b) (insert compareFn x l).
Proof.
  intros Hx HP Hs. induction Hs as [| y t Ht IH Hy]; simpl.
  - repeat constructor.
  - inversion_clear HP as [| ? ? Py Pt].
    destruct (compareFn x y > Num 0)%js eqn:E.
    + apply (gt_key compareFn P key compare_key x y Hx Py) in E.
      constructor; [now apply IH |].
      apply (Permutation_Forall
               (Permutation_sym (insert_perm compareFn x t))).
      constructor; [lra | exact Hy].
    + assert (Hle : key x <= key y).
      { apply Qnot_lt_le. intros Hlt.
        apply (gt_key compareFn P key compare_key x y Hx Py) in Hlt.
        congruence. }
      constructor; [now constructor |].
      constructor; trivial.
      apply Forall_impl with (2 := Hy). intros z Hz. lra.
Qed.

Lemma js_sort_key_sorted (l : list A) :
  Forall P l ->
  StronglySorted (fun a b => key a <= key b) (js_sort compareFn l).
Proof.
  induction 1 as [| x t Hx Ht IH]; simpl.
  - constructor.
  - apply insert_key_sorted; trivial.
    apply (Permutation_Forall (Permutation_sym (js_sort_perm compareFn t))).
    exact Ht.
Qed.

End KeySorted.

Section ListedBoards.

(** The boards that pass the filters have a finite volume and a finite
    score as soon as the weight is finite. *)
Lemma listed_finite (catalog : list Board) (q : UserQuery) (sb : Scored) :
  is_finite (weight q) = true ->
  In sb (filtered_list
           (enriched (Some catalog) (weight q) (wave q) (ability q))
           (wave q) (ability q)
           (fst (heuristicVolume (weight q) (ability q)))
           (snd (heuristicVolume (weight q) (ability q)))
           (brandFilter q)) ->
  is_finite (volume sb) = true /\ is_finite (_score sb) = true.
Proof.
  intros Hw Hsb. apply filtered_list_In in Hsb.
  destruct Hsb as [He [_ [_ [[Hlo Hhi] _]]]].
  apply enriched_In in He. destruct He as [b [_ ->]]. simpl in *.
  assert (Hv : is_finite (volume b) = true).
  { destruct (weight q) as [w| | |]; try discriminate.
    rewrite heuristicVolume_finite in Hlo, Hhi.
    destruct (volume b); simpl in Hlo, Hhi; try contradiction.
    reflexivity. }
  split; trivial.
  destruct (scoreBoard_range b (weight q) (wave q) (ability q) Hv)
    as [s [-> _]]; [| reflexivity].
  destruct (weight q); trivial; discriminate.
Qed.

End ListedBoards.

(** X6.  Under the sort mode [best] and for a finite weight, the sequence
    [all] is in descending order of score: no board is listed before a
    board with a higher score. *)
Theorem best_mode_descending :
  forall (catalog : list Board) (q : UserQuery),
    is_finite (weight q) = true ->
    sortMode q = sort_best ->
    StronglySorted (fun a b : Scored => num_le (_score b) (_score a))
                   (all (rankCatalog catalog q)).
Proof.
  intros catalog q Hw Hs. rewrite rankCatalog_all, Hs. unfold filtered.
  change by_score with (desc _score).
  apply js_sort_sorted. apply Forall_forall. intros sb Hsb.
  now apply (listed_finite catalog q sb Hw).
Qed.

Lemma best_mode_descending_witness :
  is_finite (weight (with_sort sample_query sort_best)) = true
  /\ sortMode (with_sort sample_query sort_best) = sort_best
  /\ StronglySorted (fun a b : Scored => num_le (_score b) (_score a))
       (all (rankCatalog FALLBACK_BOARDS (with_sort sample_query sort_best))).
Proof.
  split; [reflexivity |]. split; [reflexivity |].
  apply best_mode_descending; reflexivity.
Defined.

(** X7.  Under the sort mode [volume] and for a finite weight, the sequence
    [all] is in ascending order of the distance between the volume of the
    board and the target volume. *)
Theorem volume_mode_ascending :
  forall (catalog : list Board) (q : UserQuery),
    is_finite (weight q) = true ->
    sortMode q = sort_volume ->
    StronglySorted
      (fun a b : Scored =>
         num_le (volume_distance (targetVolume (weight q) (ability q)) a)
                (volume_distance (targetVolume (weight q) (ability q)) b))
      (all (rankCatalog catalog q)).
Proof.
  intros catalog q Hw Hs. rewrite rankCatalog_all, Hs. unfold filtered.
  fold (targetVolume (weight q) (ability q)).
  assert (Ht : exists t : Q, targetVolume (weight q) (ability q) = Num t).
  { destruct (weight q) as [w| | |]; try discriminate.
    apply targetVolume_finite. }
  destruct Ht as [t Ht]. rewrite Ht.
  set (L := filtered_list _ _ _ _ _ _).
  assert (HL : Forall (fun sb : Scored => is_finite (volume sb) = true) L).
  { apply Forall_forall. intros sb Hsb.
    now apply (listed_finite catalog q sb Hw). }
  pose proof (js_sort_key_sorted (by_volume (Num t))
                (fun sb : Scored => is_finite (volume sb) = true)
                (fun sb : Scored => Qabs (rational (volume sb) - t))
                (by_volume_key t) L HL) as Hsorted.
  assert (HL' : Forall (fun sb : Scored => is_finite (volume sb) = true)
                       (js_sort (by_volume (Num t)) L)).
  { apply (Permutation_Forall (Permutation_sym (js_sort_perm _ L))), HL. }
  revert Hsorted HL'. generalize (js_sort (by_volume (Num t)) L) as l.
  induction l as [| a l IH]; intros Hsorted HL'; constructor.
  - apply IH.
    + now inversion Hsorted.
    + now inversion HL'.
  - inversion_clear Hsorted as [| ? ? _ Ha].
    inversion_clear HL' as [| ? ? Fa Fl].
    rewrite Forall_forall in Ha, Fl |- *. intros b Hb.
    specialize (Ha b Hb). specialize (Fl b Hb).
    unfold volume_distance.
    destruct (volume (board a)) as [va| | |]; try discriminate.
    destruct (volume (board b)) as [vb| | |]; try discriminate.
    simpl in *. exact Ha.
Qed.

Lemma volume_mode_ascending_witness :
  is_finite (weight (with_sort sample_query sort_volume)) = true
  /\ sortMode (with_sort sample_query sort_volume) = sort_volume
  /\ StronglySorted
       (fun a b : Scored =>
          num_le (volume_distance
                    (targetVolume (weight (with_sort sample_query sort_volume))
                                  (ability (with_sort sample_query sort_volume)))
                    a)
                 (volume_distance
                    (targetVolume (weight (with_sort sample_query sort_volume))
                                  (ability (with_sort sample_query sort_volume)))
                    b))
       (all (rankCatalog FALLBACK_BOARDS (with_sort sample_query sort_volume))).
Proof.
  split; [reflexivity |]. split; [reflexivity |].
  apply volume_mode_ascending; reflexivity.
Defined.

(** X8.  The sort mode changes the order of [all] and nothing else: the
    sequences for two queries that differ in the sort mode only hold the
    same boards the same number of times, and [all] never holds more
    boards than the catalog. *)
Theorem sort_mode_only_reorders :
  forall (catalog : list Board) (q : UserQuery) (s : SortMode),
    Permutation (all (rankCatalog catalog q))
                (all (rankCatalog catalog (with_sort q s)))
    /\ (List.length (all (rankCatalog catalog q)) <= List.length catalog)%nat.
Proof.
  intros catalog q s. rewrite !rankCatalog_all. cbn [with_sort weight ability wave sortMode brandFilter].
  split.
  - apply Permutation_trans with (1 := filtered_perm _ _ _ _ _ _ _).
    apply Permutation_sym, filtered_perm.
  - rewrite (Permutation_length (filtered_perm _ _ _ _ _ _ _)).
    unfold filtered_list, enriched.
    destruct (brandFilter q);
      repeat (eapply Nat.le_trans; [apply filter_length_le |]);
      now rewrite length_map.
Qed.

(** ** The best match and the top picks *)

Section GroupKeys.

Lemma map_has_includes (m : ShaperMap) (k : string) :
  map_has m k = includes (map fst m) k.
Proof.
  induction m as [| [k' arr] t IH]; simpl; trivial.
  now rewrite IH, String.eqb_sym.
Qed.

Lemma map_push_fst (m : ShaperMap) (k : string) (b : Scored) :
  map fst (map_push m k b) = map fst m.
Proof.
  induction m as [| [k' arr] t IH]; simpl; trivial.
  destruct (String.eqb k' k); simpl; trivial. now rewrite IH.
Qed.

Lemma group_step_fst (m : ShaperMap) (b : Scored) :
  map fst (group_step m b) = set_add (map fst m) (shaper b).
Proof.
  unfold group_step, set_add. rewrite map_push_fst, map_has_includes.
  destruct (includes (map fst m) (shaper b)); simpl; trivial.
  now rewrite map_app.
Qed.

(** The brands of the map are the distinct brands of the list in the order
    of their first board. *)
Lemma group_fold_fst (l : list Scored) (m : ShaperMap) :
  map fst (fold_left group_step l m)
  = fold_left set_add (map (fun b : Scored => shaper b) l) (map fst m).
Proof.
  revert m. induction l as [| b t IH]; intros m; simpl; trivial.
  now rewrite IH, group_step_fst.
Qed.

Lemma set_add_head (l : list string) (a : string) (acc : list string) :
  exists rest : list string, fold_left set_add l (a :: acc) = a :: rest.
Proof.
  revert acc. induction l as [| x t IH]; intros acc; simpl.
  - now exists acc.
  - unfold set_add at 2. destruct (includes (a :: acc) x); [apply IH |].
    simpl. apply IH.
Qed.

Lemma num_lt_not_le (x y : number) : num_lt x y -> num_le y x -> False.
Proof.
  destruct x, y; simpl; try tauto. apply Qlt_not_le.
Qed.

End GroupKeys.

(** X9.  Under the sort mode [best] and for a finite weight, the board at
    the head of [all] is also the first top pick: the best match overall
    opens both views. *)
Theorem best_match_opens_both_views :
  forall (catalog : list Board) (q : UserQuery) (x : Scored)
         (rest : list Scored),
    is_finite (weight q) = true ->
    sortMode q = sort_best ->
    all (rankCatalog catalog q) = x :: rest ->
    exists others : list Top.t,
      topPerBrand (rankCatalog catalog q)
      = Some ({| Top.shaper := shaper x; Top.board := x |} :: others).
Proof.
  intros catalog q x rest Hw Hs Hall.
  assert (Hfin : finite_scores _score (all (rankCatalog catalog q)))
    by (apply all_finite_scores; now right).
  assert (Hsorted : StronglySorted
                      (fun a b : Scored => num_le (_score b) (_score a))
                      (all (rankCatalog catalog q))).
  { rewrite rankCatalog_all, Hs. unfold filtered.
    change by_score with (desc _score). apply js_sort_sorted.
    rewrite rankCatalog_all, Hs in Hfin. unfold filtered in Hfin.
    apply (Permutation_Forall (js_sort_perm by_score _)), Hfin. }
  rewrite rankCatalog_top, Hall in *. clear Hall.
  unfold topPicksByShaper.
  destruct (group_fold (x :: rest)) as [ks [Hnd [Hks Hm]]].
  assert (Hkeys : exists ks', ks = shaper x :: ks').
  { pose proof (group_fold_fst (x :: rest) []) as H.
    rewrite Hm, map_map in H. simpl in H. rewrite map_id in H.
    rewrite H. unfold set_add at 2. simpl. apply set_add_head. }
  destruct Hkeys as [ks' ->]. rewrite Hm.
  destruct (tops_of_groups (x :: rest) (shaper x :: ks') Hfin)
    as [tops [-> [Hk Hf]]].
  { intros k Hk. apply Hks in Hk. destruct Hk as [b [H1 H2]].
    intros E. assert (Hb : In b (brand_group k (x :: rest)))
      by (apply brand_group_In; auto).
    rewrite E in Hb. contradiction. }
  destruct tops as [| [s0 b0] tr]; [discriminate |].
  simpl in Hk. injection Hk as -> Hk.
  inversion_clear Hf as [| ? ? Hf0 Hfr]. simpl in Hf0.
  inversion_clear Hsorted as [| ? ? Hsr Hx].
  inversion_clear Hfin as [| ? ? Fx Fr].
  assert (Hb0 : b0 = x).
  { destruct Hf0 as [l1 [l2 [E [H1 H2]]]].
    unfold brand_group in E. simpl in E. rewrite String.eqb_refl in E.
    destruct l1 as [| a l1']; simpl in E; injection E as E1 E2; [now subst |].
    subst a. exfalso. inversion_clear H1 as [| ? ? Hlt _].
    assert (Hin : In b0 rest).
    { apply (proj1 (filter_In
                      (fun b : Scored => String.eqb (shaper x) (shaper b))
                      b0 rest)).
      rewrite E2. apply in_or_app. right. now left. }
    rewrite Forall_forall in Hx. apply (num_lt_not_le _ _ Hlt), Hx, Hin. }
  subst b0. simpl.
  assert (Hstop : insert by_top_score {| Top.shaper := shaper x; Top.board := x |}
                         (js_sort by_top_score tr)
                  = {| Top.shaper := shaper x; Top.board := x |}
                      :: js_sort by_top_score tr).
  { apply insert_stop. destruct (js_sort by_top_score tr) as [| y S] eqn:Ey;
      trivial.
    assert (Hy : In y tr).
    { apply (Permutation_in _ (js_sort_perm by_top_score tr)). rewrite Ey.
      now left. }
    rewrite Forall_forall in Hfr. destruct (Hfr y Hy) as [l1 [l2 [E _]]].
    assert (Hyb : In (Top.board y) (x :: rest)).
    { apply (proj1 (brand_group_In (Top.shaper y) (x :: rest) (Top.board y))).
      rewrite E. apply in_or_app. right. now left. }
    assert (Fy : is_finite (_score (Top.board y)) = true).
    { destruct Hyb as [<- | Hyb]; trivial.
      rewrite Forall_forall in Fr. now apply Fr. }
    change by_top_score with (desc top_score).
    apply (desc_not_gt top_score _ y); trivial.
    unfold top_score. simpl. destruct Hyb as [<- | Hyb].
    - destruct (_score x); try discriminate. simpl. apply Qle_refl.
    - rewrite Forall_forall in Hx. now apply Hx. }
  rewrite Hstop. eexists. reflexivity.
Qed.

Lemma best_match_opens_both_views_witness :
  is_finite (weight best_query) = true
  /\ sortMode best_query = sort_best
  /\ all (rankCatalog FALLBACK_BOARDS best_query)
     = scored best_query (nth 1 FALLBACK_BOARDS perfect_match)
       :: [scored best_query (nth 0 FALLBACK_BOARDS perfect_match)]
  /\ exists others : list Top.t,
      topPerBrand (rankCatalog FALLBACK_BOARDS best_query)
      = Some ({| Top.shaper :=
                   shaper (scored best_query
                                  (nth 1 FALLBACK_BOARDS perfect_match));
                 Top.board :=
                   scored best_query (nth 1 FALLBACK_BOARDS perfect_match) |}
              :: others).
Proof.
  assert (H1 : is_finite (weight best_query) = true) by reflexivity.
  assert (H2 : sortMode best_query = sort_best) by reflexivity.
  assert (H3 : all (rankCatalog FALLBACK_BOARDS best_query)
               = scored best_query (nth 1 FALLBACK_BOARDS perfect_match)
                 :: [scored best_query (nth 0 FALLBACK_BOARDS perfect_match)])
    by reflexivity.
  repeat (split; [assumption |]).
  exact (best_match_opens_both_views FALLBACK_BOARDS best_query _ _ H1 H2 H3).
Defined.

(** ** CSV text *)

Section StringFacts.

Local Open Scope string_scope.

Lemma append_nil_r (s : string) : s ++ "" = s.
Proof. induction s as [| c r IH]; simpl; congruence. Qed.

Lemma append_assoc (a b c : string) : (a ++ b) ++ c = a ++ b ++ c.
Proof. induction a as [| x r IH]; simpl; congruence. Qed.

Lemma free_of_cons (c x : ascii) (r : string) :
  free_of c (String x r) <-> Ascii.eqb x c = false /\ free_of c r.
Proof. unfold free_of. simpl. apply orb_false_iff. Qed.

Lemma free_of_append (c : ascii) (a b : string) :
  free_of c (a ++ b) <-> free_of c a /\ free_of c b.
Proof.
  induction a as [| x r IH]; simpl.
  - unfold free_of at 2. simpl. tauto.
  - rewrite !free_of_cons, IH. tauto.
Qed.

End StringFacts.

Section RowFacts.

Local Open Scope string_scope.

Lemma scan_line_append (a b : string) (st : RowScan) :
  scan_line (a ++ b) st = scan_line b (scan_line a st).
Proof.
  revert st. induction a as [| c r IH]; intros st; simpl; trivial.
Qed.

(** Text without a quote, and without a comma unless a quote is open,
    goes to the field being read. *)
Lemma scan_plain (f : string) (o : list string) (c : string) (q : bool) :
  free_of quote_char f ->
  (q = false -> free_of "," f) ->
  scan_line f {| out := o; cur := c; inQ := q |}
  = {| out := o; cur := c ++ f; inQ := q |}.
Proof.
  revert c. induction f as [| x r IH]; intros c Hq Hc; simpl.
  - now rewrite append_nil_r.
  - apply free_of_cons in Hq. destruct Hq as [Hx Hr].
    unfold scan_char. cbn [out cur inQ].
    change (ascii_of_nat 34) with quote_char. rewrite Hx.
    assert (E : Ascii.eqb x "," && negb q = false).
    { destruct q; [apply andb_false_r |].
      specialize (Hc eq_refl). apply free_of_cons in Hc.
      now rewrite (proj1 Hc). }
    rewrite E, IH; trivial.
    + now rewrite append_assoc.
    + intros Hq'. specialize (Hc Hq'). apply free_of_cons in Hc. tauto.
Qed.

Lemma scan_quoted (f rest : string) (st : RowScan) :
  scan_line (dquote ++ f ++ rest) st
  = scan_line (f ++ rest)
              {| out := out st; cur := cur st; inQ := negb (inQ st) |}.
Proof. reflexivity. Qed.

Lemma scan_cell (cell : bool * string) (o : list string) :
  writable cell ->
  scan_line (write_cell cell) {| out := o; cur := ""; inQ := false |}
  = {| out := o; cur := snd cell; inQ := false |}.
Proof.
  intros [Hq Hc]. unfold write_cell. destruct cell as [[|] f];
    cbn [fst snd] in *.
  - rewrite scan_quoted, scan_line_append. cbn [out cur inQ negb].
    rewrite scan_plain; [reflexivity | exact Hq | discriminate].
  - rewrite scan_plain; [reflexivity | exact Hq | exact Hc].
Qed.

Lemma scan_comma (o : list string) (c : string) :
  scan_char {| out := o; cur := c; inQ := false |} ","
  = {| out := (o ++ [c])%list; cur := ""; inQ := false |}.
Proof. reflexivity. Qed.

Lemma scan_cells (cell : bool * string) (cells : list (bool * string))
      (o : list string) :
  Forall writable (cell :: cells) ->
  let st := scan_line (String.concat "," (map write_cell (cell :: cells)))
                      {| out := o; cur := ""; inQ := false |} in
  (out st ++ [cur st] = o ++ map snd (cell :: cells))%list.
Proof.
  revert cell o. induction cells as [| c2 cs IH]; intros cell o H;
    inversion_clear H as [| ? ? Hc Hcs].
  - simpl. now rewrite scan_cell.
  - cbn zeta. change (String.concat "," (map write_cell (cell :: c2 :: cs)))
      with (write_cell cell ++ "," ++ String.concat "," (map write_cell (c2 :: cs))).
    rewrite scan_line_append, scan_cell; trivial.
    change ("," ++ String.concat "," (map write_cell (c2 :: cs)))
      with (String "," (String.concat "," (map write_cell (c2 :: cs)))).
    cbn [scan_line]. rewrite scan_comma.
    specialize (IH c2 (o ++ [snd cell])%list Hcs). cbn zeta in IH.
    rewrite IH. simpl. now rewrite <- app_assoc.
Qed.

(** The fields never hold a double quote. *)
Lemma scan_line_no_quote (line : string) (st : RowScan) :
  Forall (free_of quote_char) (out st) -> free_of quote_char (cur st) ->
  Forall (free_of quote_char) (out (scan_line line st))
  /\ free_of quote_char (cur (scan_line line st)).
Proof.
  revert st. induction line as [| ch r IH]; intros st Ho Hc; simpl.
  - now split.
  - apply IH; unfold scan_char; change (ascii_of_nat 34) with quote_char;
      destruct (Ascii.eqb ch quote_char) eqn:E; cbn [out cur]; trivial;
      destruct (Ascii.eqb ch "," && negb (inQ st)); cbn [out cur]; trivial.
    + apply Forall_app. split; trivial. now constructor.
    + reflexivity.
    + apply free_of_append. split; trivial.
      apply free_of_cons. split; trivial. reflexivity.
Qed.

Lemma split_not_nil (sep : ascii) (s : string) : split sep s <> [].
Proof.
  destruct s as [| c r]; simpl; [discriminate |].
  destruct (Ascii.eqb c sep); [discriminate |].
  destruct (split sep r); discriminate.
Qed.

(** Without quotes, the quote-aware splitter is the plain split on commas. *)
Lemma scan_line_split (s : string) (o : list string) (c : string) :
  free_of quote_char s ->
  let st := scan_line s {| out := o; cur := c; inQ := false |} in
  (out st ++ [cur st] = o ++ prepend c (split "," s))%list.
Proof.
  revert o c. induction s as [| ch r IH]; intros o c Hq; simpl.
  - now rewrite append_nil_r.
  - apply free_of_cons in Hq. destruct Hq as [Hch Hr].
    unfold scan_char. cbn [out cur inQ].
    change (ascii_of_nat 34) with quote_char. rewrite Hch.
    rewrite andb_true_r. destruct (Ascii.eqb ch ",") eqn:E.
    + specialize (IH (o ++ [c])%list "" Hr). cbn zeta in IH. rewrite IH.
      rewrite <- app_assoc. simpl. rewrite append_nil_r.
      destruct (split "," r) eqn:Es; [now apply split_not_nil in Es |].
      reflexivity.
    + specialize (IH o (c ++ String ch "") Hr). cbn zeta in IH. rewrite IH.
      destruct (split "," r) eqn:Es; [now apply split_not_nil in Es |].
      simpl. now rewrite append_assoc.
Qed.

End RowFacts.

(** X10.  Writing cells and reading them back gives the cells: a row made
    of cells without double quotes, joined by commas, each cell written
    bare or between double quotes (between quotes if it holds a comma), is
    parsed into exactly these cells, provided the row has at least the
    expected number of cells. *)
Theorem csv_row_round_trip :
  forall (cells : list (bool * string)) (expected : nat),
    cells <> [] ->
    Forall writable cells ->
    (expected <= List.length cells)%nat ->
    safeParseCSVRow (String.concat "," (map write_cell cells)) expected
    = Some (map snd cells).
Proof.
  intros cells expected Hne Hw Hn. destruct cells as [| c cs]; [congruence |].
  pose proof (scan_cells c cs [] Hw) as H. cbn zeta in H.
  unfold safeParseCSVRow. rewrite H. cbn [app].
  rewrite length_map. apply Nat.leb_le in Hn. now rewrite Hn.
Qed.

Lemma csv_row_round_trip_witness :
  two_cells <> []
  /\ Forall writable two_cells
  /\ (2 <= List.length two_cells)%nat
  /\ safeParseCSVRow (String.concat "," (map write_cell two_cells)) 2
     = Some (map snd two_cells).
Proof.
  assert (H1 : two_cells <> []) by discriminate.
  assert (H2 : Forall writable two_cells).
  { repeat constructor; try reflexivity; discriminate. }
  assert (H3 : (2 <= List.length two_cells)%nat) by (simpl; lia).
  repeat (split; [assumption |]).
  exact (csv_row_round_trip two_cells 2 H1 H2 H3).
Defined.

(** X11.  No field that [safeParseCSVRow] returns holds a double quote:
    the quote characters of a row are all dropped. *)
Theorem csv_fields_hold_no_quote :
  forall (line : string) (expected : nat) (cols : list string),
    safeParseCSVRow line expected = Some cols ->
    Forall (free_of quote_char) cols.
Proof.
  intros line expected cols. unfold safeParseCSVRow.
  destruct (scan_line_no_quote line {| out := []; cur := ""; inQ := false |})
    as [Ho Hc]; [constructor | reflexivity |].
  destruct (_ <=? _)%nat; [| discriminate].
  intros E. injection E as <-. apply Forall_app. split; trivial.
  now constructor.
Qed.

Lemma csv_fields_hold_no_quote_witness :
  safeParseCSVRow (String.concat "," (map write_cell two_cells)) 2
  = Some (map snd two_cells)
  /\ Forall (free_of quote_char) (map snd two_cells).
Proof.
  assert (H : safeParseCSVRow (String.concat "," (map write_cell two_cells)) 2
              = Some (map snd two_cells)) by reflexivity.
  split; [exact H |].
  exact (csv_fields_hold_no_quote _ 2 _ H).
Defined.

(** X12.  On a row without double quotes the quote-aware splitter agrees
    with the plain split on commas that reads the header line: it returns
    the parts of that split, or [null] when they are fewer than
    expected. *)
Theorem plain_row_is_split :
  forall (line : string) (expected : nat),
    free_of quote_char line ->
    safeParseCSVRow line expected
    = if (expected <=? List.length (split "," line))%nat
      then Some (split "," line) else None.
Proof.
  intros line expected Hq.
  pose proof (scan_line_split line [] "" Hq) as H. cbn zeta in H.
  unfold safeParseCSVRow. rewrite H. cbn [app].
  destruct (split "," line) eqn:E; [now apply split_not_nil in E |].
  reflexivity.
Qed.

Lemma plain_row_is_split_witness :
  free_of quote_char "Pyzel,Ghost,32.8"
  /\ safeParseCSVRow "Pyzel,Ghost,32.8" 3
     = if (3 <=? List.length (split "," "Pyzel,Ghost,32.8"))%nat
       then Some (split "," "Pyzel,Ghost,32.8") else None.
Proof.
  assert (H : free_of quote_char "Pyzel,Ghost,32.8") by reflexivity.
  split; [exact H |]. exact (plain_row_is_split _ 3 H).
Defined.

Section LineFacts.

Local Open Scope string_scope.

Lemma split_lines_one (l : string) : one_line l -> split_lines l = [l].
Proof.
  intros [H1 H2]. induction l as [| c r IH]; simpl; trivial.
  apply free_of_cons in H1. apply free_of_cons in H2.
  destruct H1 as [E1 H1], H2 as [E2 H2].
  rewrite E1, E2, IH; trivial.
Qed.

Lemma split_lines_LF (l s : string) :
  one_line l -> split_lines (l ++ String LF s) = l :: split_lines s.
Proof.
  intros [H1 H2]. induction l as [| c r IH]; simpl; trivial.
  apply free_of_cons in H1. apply free_of_cons in H2.
  destruct H1 as [E1 H1], H2 as [E2 H2].
  rewrite E1, E2, IH; trivial.
Qed.

Lemma split_lines_CRLF (l s : string) :
  one_line l -> split_lines (l ++ String CR (String LF s)) = l :: split_lines s.
Proof.
  intros [H1 H2]. induction l as [| c r IH]; simpl; trivial.
  apply free_of_cons in H1. apply free_of_cons in H2.
  destruct H1 as [E1 H1], H2 as [E2 H2].
  rewrite E1, E2, IH; trivial.
Qed.

Lemma split_lines_concat (sep : string) (lines : list string) :
  sep = newline \/ sep = CRLF ->
  Forall one_line lines ->
  lines <> [] ->
  split_lines (String.concat sep lines) = lines.
Proof.
  intros Hsep H. induction H as [| l t Hl Ht IH]; [congruence |]. intros _.
  destruct t as [| l2 t'].
  - simpl. now apply split_lines_one.
  - change (String.concat sep (l :: l2 :: t'))
      with (l ++ sep ++ String.concat sep (l2 :: t')).
    destruct Hsep as [-> | ->].
    + change (newline ++ ?x) with (String LF x).
      rewrite split_lines_LF, IH; trivial. discriminate.
    + change (CRLF ++ ?x) with (String CR (String LF x)).
      rewrite split_lines_CRLF, IH; trivial. discriminate.
Qed.

Lemma lines_of_concat (sep : string) (lines : list string) :
  sep = newline \/ sep = CRLF ->
  Forall one_line lines ->
  filter nonEmpty (split_lines (String.concat sep lines))
  = filter nonEmpty lines.
Proof.
  intros Hsep H. destruct lines as [| l t]; [reflexivity |].
  rewrite split_lines_concat; trivial. discriminate.
Qed.

Lemma filter_filter_nonEmpty (lines : list string) :
  filter nonEmpty (filter nonEmpty lines) = filter nonEmpty lines.
Proof.
  induction lines as [| l t IH]; simpl; trivial.
  destruct (nonEmpty l) eqn:E; simpl; [rewrite E |]; congruence.
Qed.

Lemma rows_loop_flat_map (headers rows : list string) (i : nat)
      (acc : list Board) :
  rows_loop headers rows i acc
  = (acc ++ flat_map (board_of_line headers)
                     (combine (seq i (List.length rows)) rows))%list.
Proof.
  revert i acc. induction rows as [| r rest IH]; intros i acc; simpl.
  - now rewrite app_nil_r.
  - unfold board_of_line at 1. cbn [fst snd].
    destruct (safeParseCSVRow r (List.length headers)); rewrite IH; trivial.
    now rewrite <- app_assoc.
Qed.

End LineFacts.

(** X13.  The catalog does not depend on the line endings nor on blank
    lines: lines joined by CR LF give the same boards as the same lines
    joined by LF, and the same boards as the lines that are not empty. *)
Theorem csv_line_endings :
  forall lines : list string,
    Forall one_line lines ->
    parseAirtableCSV (String.concat CRLF lines)
    = parseAirtableCSV (String.concat newline lines)
    /\ parseAirtableCSV (String.concat newline lines)
       = parseAirtableCSV (String.concat newline (filter nonEmpty lines)).
Proof.
  intros lines H. unfold parseAirtableCSV.
  rewrite !lines_of_concat; auto.
  - now rewrite filter_filter_nonEmpty.
  - apply Forall_forall. intros l Hl. apply filter_In in Hl.
    rewrite Forall_forall in H. now apply H.
Qed.

Lemma csv_line_endings_witness :
  Forall one_line two_lines
  /\ parseAirtableCSV (String.concat CRLF two_lines)
     = parseAirtableCSV (String.concat newline two_lines)
  /\ parseAirtableCSV (String.concat newline two_lines)
     = parseAirtableCSV (String.concat newline (filter nonEmpty two_lines)).
Proof.
  assert (H : Forall one_line two_lines) by (repeat constructor).
  split; [exact H |]. exact (csv_line_endings two_lines H).
Defined.

(** X14.  The boards come out in the order of the feed, one for each line
    below the header that is not empty and has at least as many fields as
    the header; a line keeps its number among the non-empty lines whether
    or not the lines before it are dropped; and there are never more boards
    than lines below the header. *)
Theorem csv_boards_in_feed_order :
  forall csv : string,
    parseAirtableCSV csv = boards_of_feed csv
    /\ (List.length (parseAirtableCSV csv)
        <= Nat.pred (List.length (filter nonEmpty (split_lines csv))))%nat.
Proof.
  intros csv. unfold parseAirtableCSV, boards_of_feed.
  destruct (filter nonEmpty (split_lines csv)) as [| header data];
    [split; trivial |].
  rewrite rows_loop_flat_map. split; trivial. cbn [app List.length Nat.pred].
  generalize (map trim (split "," header)) as headers.
  generalize 1%nat as i. intros i headers. revert i.
  induction data as [| r rest IH]; intros i; simpl; trivial.
  rewrite length_app. specialize (IH (S i)).
  unfold board_of_line at 1. cbn [snd].
  destruct (safeParseCSVRow r (List.length headers)); simpl; lia.
Qed.

Section BoardFieldFacts.

Local Open Scope string_scope.

Lemma or_else_not_empty (x : option string) (d : string) :
  d <> "" -> or_else x d <> "".
Proof. destruct x as [[| c s] |]; simpl; trivial; discriminate. Qed.

Lemma dash_spaces_not_empty (s : string) :
  s <> "" -> dash_spaces false s <> "".
Proof.
  destruct s as [| c r]; [congruence |]. intros _. simpl.
  destruct (is_space c); discriminate.
Qed.

Lemma toLowerCase_not_empty (s : string) : s <> "" -> toLowerCase s <> "".
Proof. destruct s; [congruence | discriminate]. Qed.

Lemma remove_char_free (c : ascii) (s : string) : free_of c (remove_char c s).
Proof.
  induction s as [| d r IH]; simpl; [reflexivity |].
  destruct (Ascii.eqb d c) eqn:E; trivial.
  apply free_of_cons. now split.
Qed.

Lemma remove_char_keeps_free (c x : ascii) (s : string) :
  free_of x s -> free_of x (remove_char c s).
Proof.
  induction s as [| d r IH]; simpl; trivial. intros H.
  apply free_of_cons in H. destruct H as [H1 H2].
  destruct (Ascii.eqb d c); [now apply IH |].
  apply free_of_cons. split; auto.
Qed.

(** The parts of a split hold what the text holds, less the separator. *)
Lemma split_parts_free (sep x : ascii) (s p : string) :
  free_of x s -> In p (split sep s) -> free_of x p.
Proof.
  revert p. induction s as [| d r IH]; simpl; intros p H Hp.
  - destruct Hp as [<- | []]. reflexivity.
  - apply free_of_cons in H. destruct H as [H1 H2].
    destruct (Ascii.eqb d sep).
    + destruct Hp as [<- | Hp]; [reflexivity | now apply IH].
    + destruct (split sep r) as [| h t] eqn:E; simpl in Hp.
      * destruct Hp as [<- | []]. apply free_of_cons. now split.
      * destruct Hp as [<- | Hp].
        -- apply free_of_cons. split; trivial. apply IH; trivial. now left.
        -- apply IH; trivial. now right.
Qed.

Lemma split_parts_no_sep (sep : ascii) (s p : string) :
  In p (split sep s) -> free_of sep p.
Proof.
  revert p. induction s as [| d r IH]; simpl; intros p Hp.
  - destruct Hp as [<- | []]. reflexivity.
  - destruct (Ascii.eqb d sep) eqn:E.
    + destruct Hp as [<- | Hp]; [reflexivity | now apply IH].
    + destruct (split sep r) as [| h t] eqn:Es; simpl in Hp.
      * destruct Hp as [<- | []]. apply free_of_cons. now split.
      * destruct Hp as [<- | Hp].
        -- apply free_of_cons. split; trivial. apply IH. now left.
        -- apply IH. now right.
Qed.

Lemma split_values_clean (cell : option string) (v : string) :
  In v (split_values (remove_char " " (or_else cell ""))) ->
  free_of " " v /\ free_of "|" v.
Proof.
  unfold split_values.
  set (w := remove_char " " (or_else cell "")).
  assert (Hw : free_of " " w) by apply remove_char_free.
  destruct (nonEmpty w); [| contradiction].
  destruct (includes_char w "|") eqn:E; intros Hv.
  - split; [now apply split_parts_free with (2 := Hv) |].
    now apply split_parts_no_sep with (1 := Hv).
  - split; now apply split_parts_free with (2 := Hv).
Qed.

End BoardFieldFacts.

(** X15.  Every board read from a CSV feed has an id that is not the empty
    string: an empty or missing id cell is replaced by a text made from the
    shaper and the model (or the line number), which holds a hyphen at
    least. *)
Theorem csv_id_never_empty :
  forall (csv : string) (b : Board),
    In b (parseAirtableCSV csv) -> id b <> EmptyString.
Proof.
  intros csv b H. apply parseAirtableCSV_In in H.
  destruct H as [headers [cols [i [_ ->]]]].
  unfold row_board; cbn [id].
  apply or_else_not_empty, dash_spaces_not_empty, toLowerCase_not_empty.
  destruct (or_else (col headers cols "shaper") ""); discriminate.
Qed.

Lemma csv_id_never_empty_witness :
  In (row_board ["sponsored"%string] [" true"%string] 1)
     (parseAirtableCSV csv_spaced_sponsored)
  /\ id (row_board ["sponsored"%string] [" true"%string] 1) <> EmptyString.
Proof.
  assert (H : In (row_board ["sponsored"%string] [" true"%string] 1)
                 (parseAirtableCSV csv_spaced_sponsored))
    by (left; reflexivity).
  split; [exact H |]. exact (csv_id_never_empty csv_spaced_sponsored _ H).
Defined.

(** X16.  The wave types and the abilities of a board read from a CSV feed
    hold neither a space nor a vertical bar: spaces are removed from the
    cell before it is split, and a cell that holds a bar is split at the
    bars. *)
Theorem csv_values_are_clean :
  forall (csv : string) (b : Board) (v : string),
    In b (parseAirtableCSV csv) ->
    In v (waveTypes b) \/ In v (abilities b) ->
    free_of " "%char v /\ free_of "|"%char v.
Proof.
  intros csv b v H Hv. apply parseAirtableCSV_In in H.
  destruct H as [headers [cols [i [_ ->]]]].
  unfold row_board in Hv; cbn [waveTypes abilities] in Hv.
  destruct Hv as [Hv | Hv]; now apply split_values_clean in Hv.
Qed.

Lemma csv_values_are_clean_witness :
  In (row_board ["waveTypes"%string] ["small_beach | overhead"%string] 1)
     (parseAirtableCSV ("waveTypes" ++ newline ++ "small_beach | overhead"))
  /\ (In "overhead"%string
         (waveTypes (row_board ["waveTypes"%string]
                               ["small_beach | overhead"%string] 1))
      \/ In "overhead"%string
            (abilities (row_board ["waveTypes"%string]
                                  ["small_beach | overhead"%string] 1)))
  /\ free_of " "%char "overhead" /\ free_of "|"%char "overhead".
Proof.
  assert (H1 : In (row_board ["waveTypes"%string]
                             ["small_beach | overhead"%string] 1)
                  (parseAirtableCSV
                     ("waveTypes" ++ newline ++ "small_beach | overhead")))
    by (left; reflexivity).
  assert (H2 : In "overhead"%string
                  (waveTypes (row_board ["waveTypes"%string]
                                        ["small_beach | overhead"%string] 1))
               \/ In "overhead"%string
                     (abilities (row_board ["waveTypes"%string]
                                           ["small_beach | overhead"%string] 1)))
    by (left; right; left; reflexivity).
  split; [exact H1 |]. split; [exact H2 |].
  exact (csv_values_are_clean _ _ _ H1 H2).
Defined.

(** ** Addresses *)

Section UrlFacts.

Local Open Scope string_scope.

Lemma prefix_cons (a b : ascii) (p s : string) :
  prefix (String a p) (String b s) = Ascii.eqb a b && prefix p s.
Proof.
  simpl. destruct (ascii_dec a b) as [-> | H].
  - now rewrite Ascii.eqb_refl.
  - apply Ascii.eqb_neq in H. now rewrite H.
Qed.

Lemma prefix_nil (s : string) : prefix "" s = true.
Proof. destruct s; reflexivity. Qed.

Lemma prefix_append (p s : string) : prefix p (p ++ s) = true.
Proof.
  induction p as [| c r IH]; [apply prefix_nil |].
  change (String c r ++ s) with (String c (r ++ s)).
  now rewrite prefix_cons, Ascii.eqb_refl, IH.
Qed.

Lemma drop_append (p s : string) : drop (String.length p) (p ++ s) = s.
Proof. induction p as [| c r IH]; [destruct s |]; trivial. Qed.

Lemma replace_first_here (pat rep s : string) :
  replace_first pat rep (pat ++ s) = rep ++ s.
Proof.
  destruct (pat ++ s) as [| c r] eqn:E; cbn [replace_first];
    rewrite <- E, prefix_append, drop_append; reflexivity.
Qed.

Lemma occurs_drop (pat s : string) (n : nat) :
  occurs pat (drop n s) = true -> occurs pat s = true.
Proof.
  revert s. induction n as [| n IH]; intros s; [destruct s; trivial |].
  destruct s as [| c r]; trivial. simpl drop. intros H.
  simpl. rewrite (IH r H). apply orb_true_r.
Qed.

Lemma dot_plus_blob_occurs (seen : bool) (s : string) :
  dot_plus_blob seen s = true -> occurs "/blob/" s = true.
Proof.
  revert seen. induction s as [| c r IH]; intros seen.
  - simpl. rewrite andb_false_r. discriminate.
  - cbn [dot_plus_blob occurs]. intros H. apply orb_true_iff in H.
    apply orb_true_iff. destruct H as [H | H].
    + left. now apply andb_true_iff in H.
    + right. apply andb_true_iff in H. now apply (IH true).
Qed.

Lemma github_blob_test_occurs (s : string) :
  github_blob_test s = true ->
  occurs "github.com/" s = true /\ occurs "/blob/" s = true.
Proof.
  induction s as [| c r IH].
  - simpl. discriminate.
  - cbn [github_blob_test occurs]. intros H. apply orb_true_iff in H.
    destruct H as [H | H].
    + apply andb_true_iff in H. destruct H as [H1 H2]. split.
      * rewrite H1. reflexivity.
      * apply dot_plus_blob_occurs in H2.
        apply (occurs_drop "/blob/" (String c r) 11) in H2.
        exact H2.
    + destruct (IH H) as [H1 H2]. rewrite H1, H2. split; apply orb_true_r.
Qed.

Lemma replace_first_absent (pat rep s : string) :
  occurs pat s = false -> replace_first pat rep s = s.
Proof.
  induction s as [| c r IH]; cbn [occurs replace_first]; intros H;
    apply orb_false_iff in H; destruct H as [H1 H2]; rewrite H1; trivial.
  now rewrite IH.
Qed.

Lemma replace_first_skip (pat rep : string) (c : ascii) (s : string) :
  prefix pat (String c s) = false ->
  replace_first pat rep (String c s) = String c (replace_first pat rep s).
Proof. intros H. cbn [replace_first]. now rewrite H. Qed.

(** A text without a slash is passed over. *)
Lemma replace_blob_free (rep seg t : string) :
  free_of "/" seg ->
  replace_first "/blob/" rep (seg ++ t) = seg ++ replace_first "/blob/" rep t.
Proof.
  induction seg as [| c r IH]; intros H; trivial.
  apply free_of_cons in H. destruct H as [H1 H2].
  change (String c r ++ t) with (String c (r ++ t)).
  rewrite replace_first_skip.
  - now rewrite IH.
  - rewrite prefix_cons, Ascii.eqb_sym, H1. reflexivity.
Qed.

Lemma segment_is_not_blob (seg tail : string) :
  path_segment seg -> prefix "blob/" (seg ++ String "/" tail) = false.
Proof.
  intros [Hs [_ [_ Hb]]].
  destruct seg as [| c1 [| c2 [| c3 [| c4 [| c5 r]]]]];
    try reflexivity; cbn [append]; rewrite !prefix_cons.
  - destruct (Ascii.eqb "b" c1); reflexivity.
  - destruct (Ascii.eqb "b" c1), (Ascii.eqb "l" c2); reflexivity.
  - destruct (Ascii.eqb "b" c1), (Ascii.eqb "l" c2), (Ascii.eqb "o" c3);
      reflexivity.
  - destruct (Ascii.eqb_spec "b" c1) as [<- |]; trivial.
    destruct (Ascii.eqb_spec "l" c2) as [<- |]; trivial.
    destruct (Ascii.eqb_spec "o" c3) as [<- |]; trivial.
    destruct (Ascii.eqb_spec "b" c4) as [<- |]; trivial.
    congruence.
  - apply free_of_cons in Hs. destruct Hs as [_ Hs].
    apply free_of_cons in Hs. destruct Hs as [_ Hs].
    apply free_of_cons in Hs. destruct Hs as [_ Hs].
    apply free_of_cons in Hs. destruct Hs as [_ Hs].
    apply free_of_cons in Hs. destruct Hs as [H5 _].
    rewrite (Ascii.eqb_sym "/" c5), H5.
    now rewrite !andb_false_r.
Qed.

Lemma replace_blob_segment (seg tail : string) :
  path_segment seg ->
  replace_first "/blob/" "/" (String "/" (seg ++ String "/" tail))
  = String "/" (seg ++ replace_first "/blob/" "/" (String "/" tail)).
Proof.
  intros H. rewrite replace_first_skip.
  - rewrite replace_blob_free; trivial. apply H.
  - rewrite prefix_cons. now rewrite segment_is_not_blob.
Qed.

Lemma replace_blob_path (segs : list string) (rest : string) :
  segs <> [] -> Forall path_segment segs ->
  replace_first "/blob/" "/"
                (String "/" (String.concat "/" segs ++ "/blob/" ++ rest))
  = String "/" (String.concat "/" segs ++ "/" ++ rest).
Proof.
  intros Hne H. induction H as [| seg more Hseg Hmore IH]; [congruence |].
  destruct more as [| s2 m].
  - cbn [String.concat].
    change ("/blob/" ++ rest) with (String "/" ("blob/" ++ rest)).
    rewrite replace_blob_segment; trivial.
    change (String "/" ("blob/" ++ rest)) with ("/blob/" ++ rest).
    now rewrite replace_first_here.
  - change (String.concat "/" (seg :: s2 :: m))
      with (seg ++ "/" ++ String.concat "/" (s2 :: m)).
    rewrite !append_assoc.
    change ("/" ++ ?x) with (String "/" x).
    rewrite replace_blob_segment; trivial.
    rewrite IH; [| discriminate].
    change (String "/" (String.concat "/" (s2 :: m) ++ String "/" rest))
      with ("/" ++ String.concat "/" (s2 :: m) ++ "/" ++ rest).
    reflexivity.
Qed.

Lemma dot_plus_blob_path (mid rest : string) (seen : bool) :
  one_line mid -> seen = true \/ mid <> "" ->
  dot_plus_blob seen (mid ++ "/blob/" ++ rest) = true.
Proof.
  revert seen. induction mid as [| c r IH]; intros seen [H1 H2] Hs.
  - destruct Hs as [-> | Hs]; [| congruence].
    destruct rest; reflexivity.
  - apply free_of_cons in H1. apply free_of_cons in H2.
    destruct H1 as [E1 H1], H2 as [E2 H2].
    change (String c r ++ "/blob/" ++ rest)
      with (String c (r ++ "/blob/" ++ rest)).
    cbn [dot_plus_blob]. unfold is_line_terminator. rewrite E1, E2.
    rewrite IH; [apply orb_true_r | now split | now left].
Qed.

Lemma path_one_line (segs : list string) :
  Forall path_segment segs -> one_line (String.concat "/" segs).
Proof.
  induction 1 as [| seg more [_ [Hl _]] Hmore IH]; [now split |].
  destruct more as [| s2 m]; trivial.
  change (String.concat "/" (seg :: s2 :: m))
    with (seg ++ "/" ++ String.concat "/" (s2 :: m)).
  destruct Hl as [H1 H2], IH as [H3 H4].
  split; apply free_of_append; split; trivial;
    apply free_of_append; split; trivial; reflexivity.
Qed.

Lemma path_not_empty (segs : list string) :
  segs <> [] -> Forall path_segment segs -> String.concat "/" segs <> "".
Proof.
  intros Hne H. destruct H as [| seg more [_ [_ [Hs _]]] _]; [congruence |].
  destruct seg as [| c r]; [congruence |].
  destruct more; discriminate.
Qed.

End UrlFacts.

Section UrlShapes.

Local Open Scope string_scope.

Lemma github_blob_test_at (pre s : string) :
  dot_plus_blob false s = true ->
  github_blob_test (pre ++ "github.com/" ++ s) = true.
Proof.
  intros H. induction pre as [| c r IH].
  - change ("" ++ "github.com/" ++ s) with (String "g" ("ithub.com/" ++ s)).
    cbn [github_blob_test].
    change (String "g" ("ithub.com/" ++ s)) with ("github.com/" ++ s).
    change 11%nat with (String.length "github.com/").
    now rewrite prefix_append, drop_append, H.
  - change (String c r ++ "github.com/" ++ s)
      with (String c (r ++ "github.com/" ++ s)).
    cbn [github_blob_test]. rewrite IH. apply orb_true_r.
Qed.

Lemma replace_blob_after_raw_host (x : string) :
  replace_first "/blob/" "/" ("https://raw.githubusercontent.com" ++ x)
  = "https://raw.githubusercontent.com" ++ replace_first "/blob/" "/" x.
Proof.
  cbn [append]. repeat (rewrite replace_first_skip by reflexivity).
  reflexivity.
Qed.

Lemma replace_blob_after_http_host (x : string) :
  replace_first "/blob/" "/" ("http://github.com" ++ x)
  = "http://github.com" ++ replace_first "/blob/" "/" x.
Proof.
  cbn [append]. repeat (rewrite replace_first_skip by reflexivity).
  reflexivity.
Qed.

Lemma blob_path_matches (segs : list string) (rest : string) :
  segs <> [] -> Forall path_segment segs ->
  dot_plus_blob false (String.concat "/" segs ++ "/blob/" ++ rest) = true.
Proof.
  intros Hne H. apply dot_plus_blob_path.
  - now apply path_one_line.
  - right. now apply path_not_empty.
Qed.

End UrlShapes.

(** X17.  An address that does not hold the text [/blob/], or does not
    hold the text [github.com/], is returned as it is. *)
Theorem other_addresses_unchanged :
  forall url : string,
    occurs "/blob/" url = false \/ occurs "github.com/" url = false ->
    normalizeGithubRaw url = url.
Proof.
  intros url H. unfold normalizeGithubRaw.
  destruct (github_blob_test url) eqn:E; trivial.
  apply github_blob_test_occurs in E. destruct E as [E1 E2].
  destruct H as [H | H]; congruence.
Qed.

Lemma other_addresses_unchanged_witness :
  (occurs "/blob/" AIRTABLE_CSV_URL = false
   \/ occurs "github.com/" AIRTABLE_CSV_URL = false)
  /\ normalizeGithubRaw AIRTABLE_CSV_URL = AIRTABLE_CSV_URL.
Proof.
  assert (H : occurs "/blob/" AIRTABLE_CSV_URL = false
              \/ occurs "github.com/" AIRTABLE_CSV_URL = false)
    by (left; reflexivity).
  split; [exact H |]. exact (other_addresses_unchanged AIRTABLE_CSV_URL H).
Defined.

(** X18.  The page address of a file on GitHub becomes the address of its
    raw content: for a path of segments (owner, repository, ...) none of
    which is empty, holds a slash or a line break, or is the word [blob],
    [https://github.com/<path>/blob/<rest>] is rewritten to
    [https://raw.githubusercontent.com/<path>/<rest>]. *)
Theorem blob_address_becomes_raw :
  forall (segs : list string) (rest : string),
    segs <> [] ->
    Forall path_segment segs ->
    normalizeGithubRaw
      ("https://github.com/" ++ String.concat "/" segs ++ "/blob/" ++ rest)
    = ("https://raw.githubusercontent.com/" ++ String.concat "/" segs
       ++ "/" ++ rest)%string.
Proof.
  intros segs rest Hne H. unfold normalizeGithubRaw.
  change ("https://github.com/" ++ String.concat "/" segs ++ "/blob/" ++ rest)%string
    with ("https://" ++ "github.com/"
          ++ (String.concat "/" segs ++ "/blob/" ++ rest))%string at 1.
  rewrite github_blob_test_at by now apply blob_path_matches.
  rewrite replace_first_here.
  change ("https://raw.githubusercontent.com/"
          ++ String.concat "/" segs ++ "/blob/" ++ rest)%string
    with ("https://raw.githubusercontent.com"
          ++ String "/" (String.concat "/" segs ++ "/blob/" ++ rest))%string.
  rewrite replace_blob_after_raw_host, replace_blob_path; trivial.
Qed.

Lemma blob_address_becomes_raw_witness :
  feed_repository <> []
  /\ Forall path_segment feed_repository
  /\ normalizeGithubRaw
       ("https://github.com/" ++ String.concat "/" feed_repository
        ++ "/blob/" ++ "main/Surfboard%20Finder.txt")
     = ("https://raw.githubusercontent.com/"
        ++ String.concat "/" feed_repository
        ++ "/" ++ "main/Surfboard%20Finder.txt")%string.
Proof.
  assert (H1 : feed_repository <> []) by discriminate.
  assert (H2 : Forall path_segment feed_repository).
  { repeat constructor; try reflexivity; discriminate. }
  split; [exact H1 |]. split; [exact H2 |].
  exact (blob_address_becomes_raw feed_repository
           "main/Surfboard%20Finder.txt" H1 H2).
Defined.

(** X19.  The host is rewritten only where the address holds the text
    [https://github.com/]: under the scheme [http] the same page address
    loses its [/blob] segment and keeps its host, so the result is not the
    address of the raw content. *)
Theorem http_blob_address_keeps_host :
  forall (segs : list string) (rest : string),
    segs <> [] ->
    Forall path_segment segs ->
    occurs "https://github.com/"
           ("http://github.com/" ++ String.concat "/" segs ++ "/blob/" ++ rest)
    = false ->
    normalizeGithubRaw
      ("http://github.com/" ++ String.concat "/" segs ++ "/blob/" ++ rest)
    = ("http://github.com/" ++ String.concat "/" segs ++ "/" ++ rest)%string.
Proof.
  intros segs rest Hne H Hno. unfold normalizeGithubRaw.
  rewrite (replace_first_absent _ _ _ Hno).
  change ("http://github.com/" ++ String.concat "/" segs ++ "/blob/" ++ rest)%string
    with ("http://" ++ "github.com/"
          ++ (String.concat "/" segs ++ "/blob/" ++ rest))%string at 1.
  rewrite github_blob_test_at by now apply blob_path_matches.
  change ("http://github.com/"
          ++ String.concat "/" segs ++ "/blob/" ++ rest)%string
    with ("http://github.com"
          ++ String "/" (String.concat "/" segs ++ "/blob/" ++ rest))%string.
  rewrite replace_blob_after_http_host, replace_blob_path; trivial.
Qed.

Lemma http_blob_address_keeps_host_witness :
  feed_repository <> []
  /\ Forall path_segment feed_repository
  /\ occurs "https://github.com/"
            ("http://github.com/" ++ String.concat "/" feed_repository
             ++ "/blob/" ++ "main/feed.json") = false
  /\ normalizeGithubRaw
       ("http://github.com/" ++ String.concat "/" feed_repository
        ++ "/blob/" ++ "main/feed.json")
     = ("http://github.com/" ++ String.concat "/" feed_repository
        ++ "/" ++ "main/feed.json")%string.
Proof.
  assert (H1 : feed_repository <> []) by discriminate.
  assert (H2 : Forall path_segment feed_repository).
  { repeat constructor; try reflexivity; discriminate. }
  assert (H3 : occurs "https://github.com/"
                      ("http://github.com/"
                       ++ String.concat "/" feed_repository
                       ++ "/blob/" ++ "main/feed.json") = false)
    by reflexivity.
  split; [exact H1 |]. split; [exact H2 |]. split; [exact H3 |].
  exact (http_blob_address_keeps_host feed_repository "main/feed.json"
           H1 H2 H3).
Defined.

(** The address the page fetches for its configured source. *)
Example configured_feed_address :
  source_url github
  = "https://raw.githubusercontent.com/DJenkin82/Surfboard-Finder/main/Surfboard%20Finder.txt"%string.
Proof. reflexivity. Qed.

(** ** Selections *)

Section SelectionFacts.

Lemma without_In (id : string) (prev : list string) (x : string) :
  In x (without id prev) <-> x <> id /\ In x prev.
Proof.
  unfold without. rewrite filter_In, negb_true_iff, String.eqb_neq. tauto.
Qed.

Lemma without_absent (id : string) (prev : list string) :
  ~ In id prev -> without id prev = prev.
Proof.
  intros H. induction prev as [| y t IH]; simpl; trivial.
  destruct (String.eqb_spec y id) as [-> | _].
  - exfalso. apply H. now left.
  - simpl. f_equal. apply IH. intros Hin. apply H. now right.
Qed.

Lemma without_length (id : string) (prev : list string) :
  (List.length (without id prev) <= List.length prev)%nat.
Proof. apply filter_length_le. Qed.

Lemma without_NoDup (id : string) (prev : list string) :
  NoDup prev -> NoDup (without id prev).
Proof. apply NoDup_filter. Qed.

Lemma toggleCompare_In (id : string) (prev : list string) (x : string) :
  In x (toggleCompare id prev) <->
  (x <> id /\ In x prev)
  \/ (x = id /\ ~ In id prev /\ (List.length prev < 4)%nat).
Proof.
  unfold toggleCompare. destruct (includes_reflect prev id) as [Hin | Hnot].
  - rewrite without_In. tauto.
  - destruct (Nat.ltb_spec (List.length prev) 4) as [Hlt | Hge].
    + rewrite in_app_iff. simpl. split.
      * intros [H | [<- | []]]; [left | right]; try tauto.
        split; trivial. intros ->. contradiction.
      * intros [[_ H] | [-> _]]; auto.
    + split.
      * intros H. left. split; trivial. intros ->. contradiction.
      * intros [[_ H] | [_ [_ H]]]; [trivial | lia].
Qed.

Lemma setCompareIds_invariant (prev : list string) (a : CompareAction) :
  NoDup prev /\ (List.length prev <= 4)%nat ->
  NoDup (setCompareIds prev a)
  /\ (List.length (setCompareIds prev a) <= 4)%nat.
Proof.
  intros [Hnd Hlen]. destruct a as [i | i |]; simpl.
  - unfold toggleCompare. destruct (includes_reflect prev i) as [Hin | Hnot].
    + split; [now apply without_NoDup |].
      pose proof (without_length i prev). lia.
    + destruct (Nat.ltb_spec (List.length prev) 4) as [Hlt | Hge].
      * split.
        -- apply NoDup_app; [trivial | repeat constructor; auto |].
           intros x Hx [<- | []]. contradiction.
        -- rewrite length_app. simpl. lia.
      * now split.
  - split; [now apply without_NoDup |].
    pose proof (without_length i prev). lia.
  - split; [constructor | simpl; lia].
Qed.

Lemma selection_invariant (actions : list CompareAction) (start : list string) :
  NoDup start /\ (List.length start <= 4)%nat ->
  NoDup (fold_left setCompareIds actions start)
  /\ (List.length (fold_left setCompareIds actions start) <= 4)%nat.
Proof.
  revert start. induction actions as [| a t IH]; intros start H; simpl;
    trivial.
  apply IH, setCompareIds_invariant, H.
Qed.

Lemma filter_map_NoDup (f : Board -> bool) (boards : list Board) :
  NoDup (map id boards) -> NoDup (map id (filter f boards)).
Proof.
  induction boards as [| b t IH]; simpl; intros H; [constructor |].
  inversion_clear H as [| ? ? Hb Ht].
  destruct (f b); simpl; [| now apply IH].
  constructor; [| now apply IH].
  intros Hin. apply Hb. apply in_map_iff in Hin.
  destruct Hin as [b' [E Hb']]. apply filter_In in Hb'.
  apply in_map_iff. exists b'. tauto.
Qed.

Lemma selected_at_most (boards : list Board) (ids : list string) :
  NoDup (map id boards) ->
  (List.length (selectedBoards (Some boards) ids) <= List.length ids)%nat.
Proof.
  intros H. unfold selectedBoards.
  rewrite <- (length_map id).
  apply NoDup_incl_length; [now apply filter_map_NoDup |].
  intros x Hx. apply in_map_iff in Hx. destruct Hx as [b [<- Hb]].
  apply filter_In in Hb. now apply includes_In.
Qed.

End SelectionFacts.

(** X20.  Whatever the sequence of actions on the comparison (ticking or
    unticking a card, removing a board in the drawer, clearing), the
    selection never holds more than four ids and never holds an id
    twice. *)
Theorem compare_selection_invariant :
  forall actions : list CompareAction,
    NoDup (selection_after actions)
    /\ (List.length (selection_after actions) <= 4)%nat.
Proof.
  intros actions. apply selection_invariant.
  split; [constructor | simpl; lia].
Qed.

(** X21.  Ticking a card removes its id from the selection if it is there;
    otherwise it adds the id at the end if fewer than four are selected,
    and does nothing if four are; the other ids stay as they are. *)
Theorem toggleCompare_effect :
  forall (id : string) (prev : list string) (x : string),
    (In x (toggleCompare id prev) <->
     (x <> id /\ In x prev)
     \/ (x = id /\ ~ In id prev /\ (List.length prev < 4)%nat))
    /\ (~ In id prev -> (4 <= List.length prev)%nat ->
        toggleCompare id prev = prev)
    /\ (~ In id prev -> (List.length prev < 4)%nat ->
        toggleCompare id prev = prev ++ [id]).
Proof.
  intros i prev x. split; [apply toggleCompare_In |].
  unfold toggleCompare.
  split; intros Hnot Hlen;
    destruct (includes_reflect prev i); try contradiction;
    destruct (Nat.ltb_spec (List.length prev) 4); trivial; lia.
Qed.

Lemma toggleCompare_effect_witness :
  ~ In "e"%string ["a"; "b"; "c"; "d"]%string
  /\ (4 <= List.length ["a"; "b"; "c"; "d"]%string)%nat
  /\ toggleCompare "e" ["a"; "b"; "c"; "d"]%string
     = ["a"; "b"; "c"; "d"]%string.
Proof.
  assert (H1 : ~ In "e"%string ["a"; "b"; "c"; "d"]%string).
  { simpl. intros [H | [H | [H | [H | []]]]]; discriminate. }
  assert (H2 : (4 <= List.length ["a"; "b"; "c"; "d"]%string)%nat)
    by (simpl; lia).
  split; [exact H1 |]. split; [exact H2 |].
  exact (proj1 (proj2 (toggleCompare_effect "e"
                         ["a"; "b"; "c"; "d"]%string "e")) H1 H2).
Defined.

(** X22.  Clicking a shaper chip flips that shaper in the brand filter and
    leaves the others alone; a filter without repetition stays without
    repetition; and clicking twice a shaper that was not selected gives the
    filter back. *)
Theorem toggleShaper_effect :
  forall (s : string) (prev : list string) (x : string),
    (In x (toggleShaper s prev) <->
     (x <> s /\ In x prev) \/ (x = s /\ ~ In s prev))
    /\ (NoDup prev -> NoDup (toggleShaper s prev))
    /\ (~ In s prev -> toggleShaper s (toggleShaper s prev) = prev).
Proof.
  intros s prev x. unfold toggleShaper at 1 2.
  destruct (includes_reflect prev s) as [Hin | Hnot].
  - split; [rewrite without_In; tauto |].
    split; [apply without_NoDup | contradiction].
  - split; [| split].
    + rewrite in_app_iff. simpl. split.
      * intros [H | [<- | []]]; [left | right]; try tauto.
        split; trivial. intros ->. contradiction.
      * intros [[_ H] | [-> _]]; auto.
    + intros Hnd. apply NoDup_app; [trivial | repeat constructor; auto |].
      intros y Hy [<- | []]. contradiction.
    + intros _. unfold toggleShaper.
      destruct (includes_reflect prev s); [contradiction |].
      destruct (includes_reflect (prev ++ [s]) s) as [_ | H].
      * unfold without. rewrite filter_app. simpl.
        rewrite String.eqb_refl. simpl. rewrite app_nil_r.
        now apply without_absent.
      * exfalso. apply H, in_or_app. right. now left.
Qed.

Lemma toggleShaper_effect_witness :
  ~ In "Pyzel"%string ["JS Industries"%string]
  /\ toggleShaper "Pyzel" (toggleShaper "Pyzel" ["JS Industries"%string])
     = ["JS Industries"%string].
Proof.
  assert (H : ~ In "Pyzel"%string ["JS Industries"%string]).
  { simpl. intros [H | []]. discriminate. }
  split; [exact H |].
  exact (proj2 (proj2 (toggleShaper_effect "Pyzel" ["JS Industries"%string]
                                           "Pyzel")) H).
Defined.

(** X23.  When the ids of the catalog are distinct, the comparison table
    never shows more than four boards, whatever the actions on the
    comparison were. *)
Theorem compare_table_at_most_four :
  forall (boards : list Board) (actions : list CompareAction),
    NoDup (map id boards) ->
    (List.length (selectedBoards (Some boards) (selection_after actions))
     <= 4)%nat.
Proof.
  intros boards actions H.
  pose proof (selected_at_most boards (selection_after actions) H) as H1.
  pose proof (selection_invariant actions []) as H2.
  unfold selection_after in *.
  assert (H3 : NoDup (@nil string) /\ (List.length (@nil string) <= 4)%nat)
    by (split; [constructor | simpl; lia]).
  apply H2 in H3. lia.
Qed.

Lemma compare_table_at_most_four_witness :
  NoDup (map id FALLBACK_BOARDS)
  /\ (List.length (selectedBoards (Some FALLBACK_BOARDS)
                     (selection_after [Toggle "pyzel-ghost";
                                       Toggle "js-monsta-2024"]))
      <= 4)%nat.
Proof.
  assert (H : NoDup (map id FALLBACK_BOARDS)).
  { repeat constructor; simpl; intuition discriminate. }
  split; [exact H |].
  exact (compare_table_at_most_four FALLBACK_BOARDS
           [Toggle "pyzel-ghost"; Toggle "js-monsta-2024"] H).
Defined.

(** ** The shaper chips *)

Section StringOrder.

Lemma ascii_compare_lt_trans (a b c : ascii) :
  Ascii.compare a b = Lt -> Ascii.compare b c = Lt -> Ascii.compare a c = Lt.
Proof.
  unfold Ascii.compare. rewrite !N.compare_lt_iff. apply N.lt_trans.
Qed.

Lemma string_lt_trans (a b c : string) :
  string_lt a b -> string_lt b c -> string_lt a c.
Proof.
  unfold string_lt. revert b c.
  induction a as [| x r IH]; intros [| y s] [| z t]; simpl; try discriminate;
    trivial.
  destruct (Ascii.compare x y) eqn:Exy; try discriminate;
    destruct (Ascii.compare y z) eqn:Eyz; try discriminate; intros H1 H2.
  - apply Ascii.compare_eq_iff in Exy, Eyz. subst.
    assert (E : Ascii.compare z z = Eq)
      by (unfold Ascii.compare; apply N.compare_refl).
    rewrite E. now apply IH with s.
  - apply Ascii.compare_eq_iff in Exy. subst. now rewrite Eyz.
  - apply Ascii.compare_eq_iff in Eyz. subst. now rewrite Exy.
  - now rewrite (ascii_compare_lt_trans x y z Exy Eyz).
Qed.

Lemma default_compare_gt (x y : string) :
  (default_compare x y > Num 0)%js = true <-> String.compare x y = Gt.
Proof.
  unfold default_compare. destruct (String.compare x y); simpl;
    split; congruence.
Qed.

Lemma insert_string_sorted (x : string) (l : list string) :
  ~ In x l -> StronglySorted string_lt l ->
  StronglySorted string_lt (insert default_compare x l).
Proof.
  intros Hx Hs. induction Hs as [| y t Ht IH Hy]; simpl.
  - repeat constructor.
  - destruct (default_compare x y > Num 0)%js eqn:E.
    + apply default_compare_gt in E.
      assert (Hyx : string_lt y x).
      { unfold string_lt. rewrite String.compare_antisym, E. reflexivity. }
      constructor.
      * apply IH. intros H. apply Hx. now right.
      * apply (Permutation_Forall
                 (Permutation_sym (insert_perm default_compare x t))).
        now constructor.
    + assert (Hxy : string_lt x y).
      { unfold string_lt. destruct (String.compare x y) eqn:C; trivial.
        - apply String.compare_eq_iff in C. subst. exfalso. apply Hx.
          now left.
        - apply default_compare_gt in C. congruence. }
      constructor; [now constructor |].
      constructor; trivial.
      apply Forall_impl with (2 := Hy). intros z Hz.
      now apply string_lt_trans with y.
Qed.

Lemma sort_strings_sorted (l : list string) :
  NoDup l -> StronglySorted string_lt (js_sort default_compare l).
Proof.
  induction 1 as [| x t Hx Ht IH]; simpl; [constructor |].
  apply insert_string_sorted; trivial.
  intros H. apply Hx. now apply (js_sort_In default_compare t x).
Qed.

End StringOrder.

Section SetFacts.

Lemma set_add_In (acc : list string) (x y : string) :
  In y (set_add acc x) <-> In y acc \/ y = x.
Proof.
  unfold set_add. destruct (includes_reflect acc x) as [H | H].
  - split; [tauto |]. intros [H1 | ->]; trivial.
  - rewrite in_app_iff. simpl. intuition.
Qed.

Lemma set_add_NoDup (acc : list string) (x : string) :
  NoDup acc -> NoDup (set_add acc x).
Proof.
  intros Hnd. unfold set_add. destruct (includes_reflect acc x) as [H | H];
    trivial.
  apply NoDup_app; [trivial | repeat constructor; auto |].
  intros y Hy [<- | []]. contradiction.
Qed.

Lemma fold_set_add (l acc : list string) :
  NoDup acc ->
  NoDup (fold_left set_add l acc)
  /\ forall y, In y (fold_left set_add l acc) <-> In y acc \/ In y l.
Proof.
  revert acc. induction l as [| x t IH]; intros acc Hnd; simpl.
  - split; trivial. intros y. tauto.
  - destruct (IH (set_add acc x) (set_add_NoDup acc x Hnd)) as [H1 H2].
    split; trivial. intros y. rewrite H2, set_add_In. intuition.
Qed.

End SetFacts.

(** X24.  The shaper chips are the shapers of the boards of the catalog,
    whether or not these boards match the inputs: each shaper is there
    once, and the chips are in increasing order of their code units. *)
Theorem shaper_chips :
  forall (catalog : list Board) (w : number) (wv : WaveType) (ab : Ability),
    StronglySorted string_lt (allShapers (enriched (Some catalog) w wv ab))
    /\ NoDup (allShapers (enriched (Some catalog) w wv ab))
    /\ forall s : string,
        In s (allShapers (enriched (Some catalog) w wv ab))
        <-> exists b : Board, In b catalog /\ shaper b = s.
Proof.
  intros catalog w wv ab. unfold allShapers, Set_of.
  set (names := map (fun b : Scored => shaper b) (enriched (Some catalog) w wv ab)).
  destruct (fold_set_add names [] (NoDup_nil _)) as [Hnd Hin].
  split; [now apply sort_strings_sorted |].
  split.
  - apply (Permutation_NoDup
             (Permutation_sym (js_sort_perm default_compare _))), Hnd.
  - intros s. rewrite js_sort_In, Hin. unfold names, enriched.
    rewrite map_map. simpl. rewrite in_map_iff. split.
    + intros [[] | [b [E Hb]]]. now exists b.
    + intros [b [Hb E]]. right. now exists b.
Qed.

(** ** Columns and chips *)

Section ColumnFacts.

Lemma col_named_cell (headers cols : list string) (k : string) :
  List.length headers = List.length cols ->
  col headers cols k = named_cell (combine headers cols) k.
Proof.
  unfold col. revert cols.
  induction headers as [| h t IH]; intros [| c cs] Hlen; simpl in *;
    try discriminate; trivial.
  injection Hlen as Hlen. specialize (IH cs Hlen).
  destruct (String.eqb h k); trivial.
  destruct (indexOf t k); simpl; exact IH.
Qed.

Lemma named_cell_In (cells : list (string * string)) (k v : string) :
  NoDup (map fst cells) ->
  (named_cell cells k = Some v <-> In (k, v) cells).
Proof.
  induction cells as [| [h x] t IH]; simpl; intros Hnd.
  - split; [discriminate | contradiction].
  - inversion_clear Hnd as [| ? ? Hh Ht].
    destruct (String.eqb_spec h k) as [-> | Hne].
    + split.
      * intros E. injection E as ->. now left.
      * intros [E | Hin]; [now injection E as -> |].
        exfalso. apply Hh. apply in_map_iff. now exists (k, v).
    + rewrite (IH Ht). split; [now right |].
      intros [E | Hin]; trivial. injection E as -> _. congruence.
Qed.

Lemma named_cell_perm (c1 c2 : list (string * string)) (k : string) :
  NoDup (map fst c1) -> Permutation c1 c2 ->
  named_cell c1 k = named_cell c2 k.
Proof.
  intros Hnd Hp.
  assert (Hnd2 : NoDup (map fst c2))
    by (apply (Permutation_NoDup (Permutation_map fst Hp)), Hnd).
  destruct (named_cell c1 k) as [v |] eqn:E1.
  - apply (named_cell_In c1 k v Hnd) in E1. symmetry.
    apply (named_cell_In c2 k v Hnd2). now apply (Permutation_in _ Hp).
  - destruct (named_cell c2 k) as [v |] eqn:E2; trivial.
    apply (named_cell_In c2 k v Hnd2) in E2.
    apply (Permutation_in _ (Permutation_sym Hp)) in E2.
    apply (named_cell_In c1 k v Hnd) in E2. congruence.
Qed.

Lemma combine_fst (l1 l2 : list string) :
  List.length l1 = List.length l2 -> map fst (combine l1 l2) = l1.
Proof.
  revert l2. induction l1 as [| a t IH]; intros [| b u] H; simpl in *;
    try discriminate; trivial.
  injection H as H. now rewrite IH.
Qed.

Lemma row_board_by_col (h1 c1 h2 c2 : list string) (i : nat) :
  (forall k, col h1 c1 k = col h2 c2 k) ->
  row_board h1 c1 i = row_board h2 c2 i.
Proof.
  intros H. unfold row_board. now rewrite !H.
Qed.

Lemma filter_all (A : Type) (f : A -> bool) (l : list A) :
  (forall x, In x l -> f x = true) -> filter f l = l.
Proof.
  induction l as [| a t IH]; simpl; intros H; trivial.
  rewrite (H a (or_introl eq_refl)). f_equal. apply IH.
  intros x Hx. apply H. now right.
Qed.

End ColumnFacts.

(** X25.  The order of the columns of a CSV feed does not matter: when the
    names of the header are distinct, a row and its header rearranged in
    the same way give the same board. *)
Theorem column_order_is_irrelevant :
  forall (headers cols headers' cols' : list string) (i : nat),
    List.length headers = List.length cols ->
    List.length headers' = List.length cols' ->
    NoDup headers ->
    Permutation (combine headers cols) (combine headers' cols') ->
    row_board headers cols i = row_board headers' cols' i.
Proof.
  intros headers cols headers' cols' i Hl Hl' Hnd Hp.
  apply row_board_by_col. intros k.
  rewrite !col_named_cell; trivial.
  apply named_cell_perm; trivial.
  rewrite combine_fst; trivial.
Qed.

Lemma column_order_is_irrelevant_witness :
  List.length ["shaper"; "volume"]%string
  = List.length ["Pyzel"; "32.8"]%string
  /\ List.length ["volume"; "shaper"]%string
     = List.length ["32.8"; "Pyzel"]%string
  /\ NoDup ["shaper"; "volume"]%string
  /\ Permutation (combine ["shaper"; "volume"] ["Pyzel"; "32.8"])%string
                 (combine ["volume"; "shaper"] ["32.8"; "Pyzel"])%string
  /\ row_board ["shaper"; "volume"]%string ["Pyzel"; "32.8"]%string 1
     = row_board ["volume"; "shaper"]%string ["32.8"; "Pyzel"]%string 1.
Proof.
  assert (H1 : List.length ["shaper"; "volume"]%string
               = List.length ["Pyzel"; "32.8"]%string) by reflexivity.
  assert (H2 : List.length ["volume"; "shaper"]%string
               = List.length ["32.8"; "Pyzel"]%string) by reflexivity.
  assert (H3 : NoDup ["shaper"; "volume"]%string).
  { repeat constructor; simpl; intuition discriminate. }
  assert (H4 : Permutation
                 (combine ["shaper"; "volume"] ["Pyzel"; "32.8"])%string
                 (combine ["volume"; "shaper"] ["32.8"; "Pyzel"])%string)
    by apply perm_swap.
  repeat (split; [assumption |]).
  exact (column_order_is_irrelevant _ _ _ _ 1 H1 H2 H3 H4).
Defined.

(** X26.  Selecting every shaper is the same as selecting none: with a
    brand filter that holds the shaper of every board of the catalog, the
    two views are those of the empty brand filter. *)
Theorem all_chips_is_no_filter :
  forall (catalog : list Board) (q : UserQuery) (brands : list string),
    (forall b : Board, In b catalog -> In (shaper b) brands) ->
    rankCatalog catalog (with_brands q brands)
    = rankCatalog catalog (with_brands q []).
Proof.
  intros catalog q brands H. unfold rankCatalog.
  cbn [with_brands weight ability wave sortMode brandFilter].
  destruct (heuristicVolume (weight q) (ability q)) as [minV maxV].
  assert (E : filtered (enriched (Some catalog) (weight q) (wave q) (ability q))
                       (wave q) (ability q) minV maxV (sortMode q) brands
              = filtered (enriched (Some catalog) (weight q) (wave q)
                                   (ability q))
                         (wave q) (ability q) minV maxV (sortMode q) []).
  { assert (EL : filtered_list
                   (enriched (Some catalog) (weight q) (wave q) (ability q))
                   (wave q) (ability q) minV maxV brands
                 = filtered_list
                     (enriched (Some catalog) (weight q) (wave q) (ability q))
                     (wave q) (ability q) minV maxV []);
      [| unfold filtered; now rewrite EL].
    unfold filtered_list.
    destruct brands as [| s0 rest]; trivial.
    apply filter_all. intros sb Hsb.
    apply filter_In in Hsb. destruct Hsb as [Hsb _].
    apply filter_In in Hsb. destruct Hsb as [Hsb _].
    apply filter_In in Hsb. destruct Hsb as [Hsb _].
    apply enriched_In in Hsb. destruct Hsb as [b [Hb ->]].
    apply includes_In. simpl. now apply H. }
  now rewrite E.
Qed.

Lemma all_chips_is_no_filter_witness :
  (forall b : Board,
      In b FALLBACK_BOARDS ->
      In (shaper b) (allShapers (enriched (Some FALLBACK_BOARDS) (Num 80)
                                          mellow_point intermediate)))
  /\ rankCatalog FALLBACK_BOARDS
       (with_brands sample_query
          (allShapers (enriched (Some FALLBACK_BOARDS) (Num 80)
                                mellow_point intermediate)))
     = rankCatalog FALLBACK_BOARDS (with_brands sample_query []).
Proof.
  assert (H : forall b : Board,
             In b FALLBACK_BOARDS ->
             In (shaper b)
                (allShapers (enriched (Some FALLBACK_BOARDS) (Num 80)
                                      mellow_point intermediate))).
  { intros b [<- | [<- | [<- | []]]]; vm_compute; tauto. }
  split; [exact H |].
  exact (all_chips_is_no_filter FALLBACK_BOARDS sample_query _ H).
Defined.
